(** * The datasource store module of of1.js-example

    A shallow embedding of [src/store/data-sources/data-sources.ts]: the
    Vuex module built by [createDatasource], its mutations and its actions.

    - Records are JavaScript objects.  They live in an object store and the
      state holds references to them, because the [update] mutation writes
      into the active record in place and [setActiveRecord] stores the very
      object it is given.
    - [AbortController]s are objects too: a store of [aborted] flags, with
      the two closure variables [fetchAbortController] and
      [batchAbortController] holding references (or [null]).
    - A mutation either completes or throws, and in both cases the writes it
      made so far stay: [Commit A] returns the session together with an
      [Error + A].
    - An [async] action runs synchronously up to its next [await] of an
      adapter call, where it suspends with a continuation ([Proc]).  Other
      actions may run before the continuation is resumed with the adapter's
      answer. *)

From stdpp Require Import gmap strings list fin_maps.
From Stdlib Require Import ZArith Lia.

Open Scope Z_scope.

(** ** Values and records *)

(** Field values.  Numbers are restricted to integers, for which [===] is
    plain equality. *)
Inductive JsValue : Type :=
| JsNull
| JsNumber (n : Z)
| JsString (s : string).

#[global] Instance JsValue_eq_dec : EqDecision JsValue.
Proof. solve_decision. Defined.

(** Modelled from the spec: [IOF1DataRecord] is declared in
    [~/data-adapters/interfaces], which is not part of the sources.  The
    spec describes a record as a structure with an [id] field and zero or
    more further fields; here it is a JavaScript object, a finite map from
    property names to values.  A property that is missing reads as
    [undefined], which is [None]. *)
Abbreviation DataRecord := (gmap string JsValue).

(** References into the object store and into the controller store. *)
Abbreviation ref := nat (only parsing).
Abbreviation ctrl := nat (only parsing).

Inductive UpdateMode : Type := Update | Add | Copy | Browse.

#[global] Instance UpdateMode_eq_dec : EqDecision UpdateMode.
Proof. solve_decision. Defined.

Record IDatasourceOptions : Type := {
  collectionRecordFields : option (list string);
  activeRecordFields : option (list string);
  batchSize : option Z
}.

Definition defaultBatchSize : Z := 50.

Record IDatasourceState : Type := mkState {
  activeRecord : option ref;
  originalRecord : option ref;
  records : list ref;
  updateMode : UpdateMode;
  pointer : Z;
  locked : bool
}.

(** The registered module's state together with what the closure of
    [createDatasource] and the JavaScript heap hold. *)
Record Session : Type := mkSession {
  state : IDatasourceState;
  objects : list DataRecord;
  controllers : list bool;
  fetchAbortController : option ctrl;
  batchAbortController : option ctrl
}.

(** ** Errors *)

(** What is thrown.  [error text] is [new Error(`${text} (DS ${name})`)];
    the suffix with the name of the datasource is the same for all errors
    of a session and is left out.  [errorUnexpectedMode] keeps its two
    arguments instead of the message built from them; the message itself
    looks the modes up in the enum by their values, which a string enum
    does not have as keys.  [TypeError] is what
    the runtime throws for a property read on [null].  [AdapterError] is
    whatever an adapter call rejects with. *)
Inductive Error : Type :=
| error (text : string)
| errorUnexpectedMode (currentMode : UpdateMode) (expectedMode : option UpdateMode)
| TypeError
| AdapterError (reason : string).

#[global] Instance Error_eq_dec : EqDecision Error.
Proof. solve_decision. Defined.

Definition errorLocked : Error := error "Datasource is locked.".

(** ** Field setters *)

Definition set_activeRecord (v : option ref) (st : IDatasourceState) :=
  mkState v (originalRecord st) (records st) (updateMode st) (pointer st) (locked st).
Definition set_originalRecord (v : option ref) (st : IDatasourceState) :=
  mkState (activeRecord st) v (records st) (updateMode st) (pointer st) (locked st).
Definition set_records (v : list ref) (st : IDatasourceState) :=
  mkState (activeRecord st) (originalRecord st) v (updateMode st) (pointer st) (locked st).
Definition set_updateMode (v : UpdateMode) (st : IDatasourceState) :=
  mkState (activeRecord st) (originalRecord st) (records st) v (pointer st) (locked st).
Definition set_pointer (v : Z) (st : IDatasourceState) :=
  mkState (activeRecord st) (originalRecord st) (records st) (updateMode st) v (locked st).
Definition set_locked (v : bool) (st : IDatasourceState) :=
  mkState (activeRecord st) (originalRecord st) (records st) (updateMode st) (pointer st) v.

Definition with_state (f : IDatasourceState -> IDatasourceState) (s : Session) : Session :=
  mkSession (f (state s)) (objects s) (controllers s)
            (fetchAbortController s) (batchAbortController s).
Definition with_objects (h : list DataRecord) (s : Session) : Session :=
  mkSession (state s) h (controllers s) (fetchAbortController s) (batchAbortController s).
Definition with_controllers (c : list bool) (s : Session) : Session :=
  mkSession (state s) (objects s) c (fetchAbortController s) (batchAbortController s).
Definition with_fetchAbortController (c : option ctrl) (s : Session) : Session :=
  mkSession (state s) (objects s) (controllers s) c (batchAbortController s).
Definition with_batchAbortController (c : option ctrl) (s : Session) : Session :=
  mkSession (state s) (objects s) (controllers s) (fetchAbortController s) c.

(** ** The object store *)

(** The object behind a reference.  Every reference the code holds is to
    an object that exists; a reference outside the store reads as an object
    without properties. *)
Definition deref (h : list DataRecord) (r : ref) : DataRecord :=
  default ∅ (h !! r).

(** [new Object] with the given enumerable properties. *)
Definition alloc (o : DataRecord) (s : Session) : ref * Session :=
  (length (objects s), with_objects (objects s ++ [o]) s).

(** [{ ...record }]: a fresh object with the enumerable own properties of
    [record]; spreading [null] gives an empty object. *)
Definition spread (h : list DataRecord) (record : option ref) : DataRecord :=
  match record with
  | Some r => deref h r
  | None => ∅
  end.

(** [record.id], [undefined] when the property is missing. *)
Definition id_of (h : list DataRecord) (r : ref) : option JsValue :=
  deref h r !! "id"%string.

(** ** Abort controllers *)

Definition newAbortController (s : Session) : ctrl * Session :=
  (length (controllers s), with_controllers (controllers s ++ [false]) s).

Definition abort (c : ctrl) (s : Session) : Session :=
  with_controllers (<[c := true]> (controllers s)) s.

Definition aborted (s : Session) (c : ctrl) : bool :=
  default false (controllers s !! c).

(** ** Mutations *)

Definition Commit (A : Type) : Type := Session -> Session * (Error + A).

Definition ret {A} (a : A) : Commit A := fun s => (s, inr a).
Definition throw {A} (e : Error) : Commit A := fun s => (s, inl e).
Definition bind {A B} (m : Commit A) (f : A -> Commit B) : Commit B :=
  fun s => match m s with
           | (s', inr a) => f a s'
           | (s', inl e) => (s', inl e)
           end.
Definition get : Commit Session := fun s => (s, inr s).
Definition modify (f : Session -> Session) : Commit unit := fun s => (f s, inr tt).

Notation "'let*' x ':=' m 'in' k" := (bind m (fun x => k))
  (at level 10, x name, m at level 100, k at level 200).

(** [array.findIndex(callback)], where the callback may throw. *)
Fixpoint findIndex_from {A} (callback : A -> Error + bool) (l : list A) (i : Z) : Error + Z :=
  match l with
  | [] => inr (-1)
  | x :: l' =>
      match callback x with
      | inl e => inl e
      | inr true => inr i
      | inr false => findIndex_from callback l' (i + 1)
      end
  end.

Definition findIndex {A} (callback : A -> Error + bool) (l : list A) : Error + Z :=
  findIndex_from callback l 0.

(** [(x) => x.id === record.id]; reading [record.id] throws when [record]
    is [null]. *)
Definition sameId (h : list DataRecord) (record : option ref) (x : ref) : Error + bool :=
  match record with
  | None => inl TypeError
  | Some r => inr (bool_decide (id_of h x = id_of h r))
  end.

Definition setCollection (recs : list ref) : Commit unit :=
  modify (with_state (set_records recs)).

Definition setActiveRecord (record : option ref) (preserveOriginal : bool) : Commit unit :=
  let* s := get in
  if locked (state s) then throw errorLocked else
  let* _ := modify (with_state (set_activeRecord record)) in
  let* _ := (if negb preserveOriginal then
               fun s => let '(o, s') := alloc (spread (objects s) record) s in
                        (with_state (set_originalRecord (Some o)) s', inr tt)
             else ret tt) in
  let* s := get in
  match findIndex (sameId (objects s) record) (records (state s)) with
  | inl e => throw e
  | inr position => modify (with_state (set_pointer position))
  end.

Definition setUpdateMode (mode : UpdateMode) : Commit unit :=
  let* s := get in
  if locked (state s) then throw errorLocked else
  modify (with_state (set_updateMode mode)).

(** [object.hasOwnProperty(field)] for an object that the state holds.  The
    module is registered in a Vuex store of Vue 2, which makes every plain
    object that is assigned into the state reactive and marks it with the
    own property [__ob__].  That property is not enumerable: [Object.keys]
    and the spread do not see it, and it is no key of the [DataRecord],
    which holds the enumerable properties. *)
Definition hasOwnProperty (o : DataRecord) (field : string) : bool :=
  bool_decide (is_Some (o !! field)) || bool_decide (field = "__ob__"%string).

(** The assignment [state.activeRecord[field] = value] is reached for an own
    property only.  An enumerable property takes the value.  Otherwise the
    property is [__ob__]: the assignment replaces Vue's marker, the property
    stays non-enumerable, and the enumerable properties are as before. *)
Definition update (field : string) (value : JsValue) : Commit unit :=
  let* s := get in
  if locked (state s) then throw errorLocked else
  if bool_decide (updateMode (state s) = Browse)
  then throw (errorUnexpectedMode (updateMode (state s)) (Some Browse)) else
  match activeRecord (state s) with
  | None => throw (error "Cannot update record, since none is selected.")
  | Some a =>
      if negb (hasOwnProperty (deref (objects s) a) field)
      then throw (error "Cannot update field, since it's not in the record.")
      else if bool_decide (is_Some (deref (objects s) a !! field))
      then modify (with_objects (<[a := <[field := value]> (deref (objects s) a)]> (objects s)))
      else ret tt
  end.

Definition lock : Commit unit :=
  let* s := get in
  if locked (state s) then throw errorLocked else
  modify (with_state (set_locked true)).

Definition unlock : Commit unit :=
  let* s := get in
  if locked (state s) then throw (error "Datasource is not locked.") else
  modify (with_state (set_locked false)).

(** ** Asynchronous actions *)

(** Modelled from the spec: [IOF1DataAdapter] is declared in
    [~/data-adapters/interfaces], which is not part of the sources.  By the
    adapter contract of the spec, [getFirst] returns an ordered sequence of
    records, [getRecord] a record or nothing, [create] and [update] the
    persisted record.  Each returns a promise, which is fulfilled ([inr])
    or rejected ([inl]). *)
Abbreviation GetFirstAnswer := (Error + list ref)%type.
Abbreviation GetRecordAnswer := (Error + option ref)%type.
Abbreviation PersistAnswer := (Error + ref)%type.

(** What an [async] action is doing: it has settled ([Done], fulfilled or
    rejected), or it is suspended at the [await] of an adapter call and
    will continue, from the session as it is then, once the adapter
    answers. *)
#[local] Unset Elimination Schemes.
Inductive Proc (A : Type) : Type :=
| Done (r : Error + A)
| AwaitGetFirst (columns : option (list string)) (count : Z) (signal : ctrl)
    (k : GetFirstAnswer -> Session -> Session * Proc A)
| AwaitGetRecord (id : option JsValue) (columns : option (list string)) (signal : ctrl)
    (k : GetRecordAnswer -> Session -> Session * Proc A)
| AwaitCreate (record : ref)
    (k : PersistAnswer -> Session -> Session * Proc A)
| AwaitUpdate (record original : ref)
    (k : PersistAnswer -> Session -> Session * Proc A).

#[local] Set Elimination Schemes.

Arguments Done {A} r.
Arguments AwaitGetFirst {A} columns count signal k.
Arguments AwaitGetRecord {A} id columns signal k.
Arguments AwaitCreate {A} record k.
Arguments AwaitUpdate {A} record original k.

Definition Action (A : Type) : Type := Session -> Session * Proc A.

(** [await dispatch(...)] of another action of the module: the rest of the
    caller runs when the callee has settled. *)
Fixpoint andThen {A B} (p : Proc A) (f : A -> Action B) (s : Session) : Session * Proc B :=
  match p with
  | Done (inl e) => (s, Done (inl e))
  | Done (inr a) => f a s
  | AwaitGetFirst columns count signal k =>
      (s, AwaitGetFirst columns count signal
            (fun r s' => andThen (snd (k r s')) f (fst (k r s'))))
  | AwaitGetRecord id columns signal k =>
      (s, AwaitGetRecord id columns signal
            (fun r s' => andThen (snd (k r s')) f (fst (k r s'))))
  | AwaitCreate record k =>
      (s, AwaitCreate record (fun r s' => andThen (snd (k r s')) f (fst (k r s'))))
  | AwaitUpdate record original k =>
      (s, AwaitUpdate record original
            (fun r s' => andThen (snd (k r s')) f (fst (k r s'))))
  end.

Definition dispatch {A B} (callee : Action A) (f : A -> Action B) : Action B :=
  fun s => let '(s', p) := callee s in andThen p f s'.

(** A synchronous stretch of an action. *)
Definition commit {A B} (m : Commit A) (f : A -> Action B) : Action B :=
  fun s => match m s with
           | (s', inr a) => f a s'
           | (s', inl e) => (s', Done (inl e))
           end.

Definition resolve {A} (a : A) : Action A := fun s => (s, Done (inr a)).
Definition reject {A} (e : Error) : Action A := fun s => (s, Done (inl e)).

(** ** Actions *)

Section Actions.

Variable options : IDatasourceOptions.

(** [createDatasource] fills in the batch size when it is undefined. *)
Definition batchSize_of : Z := default defaultBatchSize (batchSize options).

Definition abortIfAny (c : option ctrl) (s : Session) : Session :=
  match c with
  | Some c => abort c s
  | None => s
  end.

(** The three commits at the end of [init]. *)
Definition init_settle (recs : list ref) (record : option ref)
    (localFetchAbortController : ctrl) : Action unit :=
  commit (setCollection recs) (fun _ s =>
  commit (if negb (aborted s localFetchAbortController)
          then setActiveRecord record false else ret tt) (fun _ =>
  commit (setUpdateMode Browse) (fun _ =>
  resolve tt)) s).

Definition init_afterGetRecord (recs : list ref) (localFetchAbortController : ctrl)
    (answer : Error + option ref) : Action unit :=
  match answer with
  | inl e => reject e
  | inr firstRecord => init_settle recs firstRecord localFetchAbortController
  end.

Definition init_afterGetFirst (localBatchAbortController : ctrl)
    (answer : Error + list ref) : Action unit :=
  match answer with
  | inl e => reject e
  | inr recs => fun s =>
      if aborted s localBatchAbortController then resolve tt s else
      let s := with_batchAbortController None s in
      let '(localFetchAbortController, s) := newAbortController s in
      let s := with_fetchAbortController (Some localFetchAbortController) s in
      match recs with
      | firstRef :: _ =>
          (s, AwaitGetRecord (id_of (objects s) firstRef) (activeRecordFields options)
                localFetchAbortController
                (init_afterGetRecord recs localFetchAbortController))
      | [] => init_settle recs None localFetchAbortController s
      end
  end.

Definition init : Action unit := fun s =>
  if locked (state s) then reject errorLocked s else
  let s := abortIfAny (batchAbortController s) s in
  let s := abortIfAny (fetchAbortController s) s in
  let '(localBatchAbortController, s) := newAbortController s in
  let s := with_batchAbortController (Some localBatchAbortController) s in
  (s, AwaitGetFirst (collectionRecordFields options) batchSize_of
        localBatchAbortController
        (init_afterGetFirst localBatchAbortController)).

(** The part of [repositionById] after its [await].  The test reads the
    closure variable [fetchAbortController], whatever it holds by then. *)
Definition repositionById_afterGetRecord (answer : Error + option ref) : Action bool :=
  match answer with
  | inl e => reject e
  | inr newRecord => fun s =>
      match fetchAbortController s with
      | None => reject TypeError s
      | Some c =>
          if negb (aborted s c)
          then commit (setActiveRecord newRecord false) (fun _ => resolve true) s
          else resolve false s
      end
  end.

Definition repositionById (id : option JsValue) : Action bool := fun s =>
  if locked (state s) then reject errorLocked s else
  if negb (bool_decide (updateMode (state s) = Browse))
  then reject (errorUnexpectedMode (updateMode (state s)) (Some Browse)) s else
  let s := abortIfAny (fetchAbortController s) s in
  let '(localFetchAbortController, s) := newAbortController s in
  let s := with_fetchAbortController (Some localFetchAbortController) s in
  (s, AwaitGetRecord id (activeRecordFields options) localFetchAbortController
        repositionById_afterGetRecord).

(** [array[pos]], [undefined] outside the array. *)
Definition at_index {A} (l : list A) (pos : Z) : option A :=
  if 0 <=? pos then l !! Z.to_nat pos else None.

Definition reposition (pos : Z) : Action bool := fun s =>
  if locked (state s) then reject errorLocked s else
  if negb (bool_decide (updateMode (state s) = Browse))
  then reject (errorUnexpectedMode (updateMode (state s)) (Some Browse)) s else
  match at_index (records (state s)) pos with
  | None => reject (error "No such position.") s
  | Some record => dispatch (repositionById (id_of (objects s) record)) resolve s
  end.

Definition prev : Action unit := fun s =>
  if 0 <? pointer (state s)
  then dispatch (reposition (pointer (state s) - 1)) (fun _ => resolve tt) s
  else resolve tt s.

Definition next : Action unit := fun s =>
  if pointer (state s) + 1 <? Z.of_nat (length (records (state s)))
  then dispatch (reposition (pointer (state s) + 1)) (fun _ => resolve tt) s
  else resolve tt s.

(** An expression statement: the value is computed and dropped. *)
Definition discard {A B} (value : A) (rest : B) : B := rest.

Definition edit : Commit unit :=
  let* s := get in
  if locked (state s) then throw errorLocked else
  if negb (bool_decide (updateMode (state s) = Browse))
  then throw (errorUnexpectedMode (updateMode (state s)) (Some Browse)) else
  discard (if negb (bool_decide (is_Some (originalRecord (state s))))
           then Some (error "Cannot enter edit mode, since there is no original record")
           else None)
  (setUpdateMode Update).

(** [Object.keys(o)]. *)
Definition Object_keys (o : DataRecord) : list string := (map_to_list o).*1.

(** [for (const key of keys) record[key] = null]. *)
Definition clearAll (keys : list string) (record : DataRecord) : DataRecord :=
  foldl (fun rec key => <[key := JsNull]> rec) record keys.

Definition new_object (o : DataRecord) : Commit ref :=
  fun s => let '(r, s') := alloc o s in (s', inr r).

Definition add : Commit unit :=
  let* s := get in
  if locked (state s) then throw errorLocked else
  if negb (bool_decide (updateMode (state s) = Browse))
  then throw (errorUnexpectedMode (updateMode (state s)) (Some Browse)) else
  let* _ := setUpdateMode Add in
  let* s := get in
  let* record := new_object
      match activeRecord (state s) with
      | Some a => clearAll (Object_keys (deref (objects s) a)) ∅
      | None => ∅
      end in
  setActiveRecord (Some record) true.

Definition copy : Commit unit :=
  let* s := get in
  if locked (state s) then throw errorLocked else
  if negb (bool_decide (updateMode (state s) = Browse))
  then throw (errorUnexpectedMode (updateMode (state s)) (Some Browse)) else
  let* _ := setUpdateMode Copy in
  let* s := get in
  let* record := new_object (spread (objects s) (activeRecord (state s))) in
  setActiveRecord (Some record) true.

(** [finally { commit('unlock') }] and what follows the [try] statement.
    [outcome] is how the [try] block ended: with a throw, or normally with
    [newRecord] assigned.  A throw from the [finally] block replaces it. *)
Definition save_finally (outcome : Error + option ref) : Action unit :=
  commit unlock (fun _ =>
  match outcome with
  | inl e => reject e
  | inr newRecord =>
      commit (setActiveRecord newRecord false) (fun _ =>
      dispatch init resolve)
  end).

Definition save_afterAdapter (answer : Error + ref) : Action unit :=
  match answer with
  | inl e => save_finally (inl e)
  | inr newRecord => save_finally (inr (Some newRecord))
  end.

Definition save : Action unit := fun s =>
  if locked (state s) then reject errorLocked s else
  if bool_decide (updateMode (state s) = Browse)
  then reject (errorUnexpectedMode (updateMode (state s)) None) s else
  match activeRecord (state s) with
  | None => reject (error "Save action has no active record!") s
  | Some active =>
      match lock s with
      | (s, inl e) => save_finally (inl e) s
      | (s, inr _) =>
          match updateMode (state s) with
          | Add => (s, AwaitCreate active save_afterAdapter)
          | Copy => (s, AwaitCreate active save_afterAdapter)
          | Update =>
              match originalRecord (state s) with
              | None => save_finally (inl (error "Update save action has no original record!")) s
              | Some original => (s, AwaitUpdate active original save_afterAdapter)
              end
          | Browse => save_finally (inr None) s
          end
      end
  end.

Definition cancel : Action unit := fun s =>
  if locked (state s) then reject errorLocked s else
  if bool_decide (updateMode (state s) = Browse)
  then reject (errorUnexpectedMode (updateMode (state s)) None) s else
  commit (setActiveRecord (originalRecord (state s)) false) (fun _ =>
  commit (setUpdateMode Browse) (fun _ =>
  resolve tt)) s.

End Actions.

(** The state of a freshly created datasource. *)
Definition initialState : IDatasourceState :=
  {| originalRecord := None; activeRecord := None; records := [];
     updateMode := Browse; pointer := -1; locked := false |}.

(** A new session; [heap] holds the objects that exist already. *)
Definition createDatasource (heap : list DataRecord) : Session :=
  {| state := initialState; objects := heap; controllers := [];
     fetchAbortController := None; batchAbortController := None |}.

(** ** The adapter answering *)

(** The adapter settles the call an action is suspended at; [None] when the
    action is not suspended at such a call. *)
Definition answerGetFirst {A} (answer : Error + list ref) (x : Session * Proc A)
    : option (Session * Proc A) :=
  match x with
  | (s, AwaitGetFirst _ _ _ k) => Some (k answer s)
  | _ => None
  end.

Definition answerGetRecord {A} (answer : Error + option ref) (x : Session * Proc A)
    : option (Session * Proc A) :=
  match x with
  | (s, AwaitGetRecord _ _ _ k) => Some (k answer s)
  | _ => None
  end.

Definition answerPersist {A} (answer : Error + ref) (x : Session * Proc A)
    : option (Session * Proc A) :=
  match x with
  | (s, AwaitCreate _ k) => Some (k answer s)
  | (s, AwaitUpdate _ _ k) => Some (k answer s)
  | _ => None
  end.

(** An answer of the adapter, to [getFirst], to [getRecord], or to [create]
    or [update]. *)
Inductive Answer : Type :=
| GotFirst (a : Error + list ref)
| GotRecord (a : Error + option ref)
| Persisted (a : Error + ref).

Definition answer {A} (a : Answer) (x : Session * Proc A) : option (Session * Proc A) :=
  match a with
  | GotFirst r => answerGetFirst r x
  | GotRecord r => answerGetRecord r x
  | Persisted r => answerPersist r x
  end.

(** The action runs to its end with nothing else in between: the adapter
    answers its calls one after the other with [answers].  [None] when the
    answers do not fit the calls the action makes. *)
Fixpoint settle {A} (answers : list Answer) (x : Session * Proc A)
    : option (Session * (Error + A)) :=
  match answers with
  | [] => match x with
          | (s, Done r) => Some (s, r)
          | _ => None
          end
  | a :: rest => match answer a x with
                 | Some x' => settle rest x'
                 | None => None
                 end
  end.

(** ** Overlapping actions *)

(** Two overlapping actions [first] and [second], both suspended at
    [getRecord]: [second] is started while [first] is suspended, the
    adapter answers [second] and only then [first]. *)
Definition overtaken {A B} (first : Action A) (second : Action B)
    (answerFirst answerSecond : Error + option ref) (s : Session)
    : option (Session * Proc A * Proc B) :=
  let '(s1, pFirst) := first s in
  let '(s2, pSecond) := second s1 in
  match answerGetRecord answerSecond (s2, pSecond) with
  | None => None
  | Some (s3, pSecond') =>
      match answerGetRecord answerFirst (s3, pFirst) with
      | None => None
      | Some (s4, pFirst') => Some (s4, pFirst', pSecond')
      end
  end.

(** [init] is started, then [save]; the adapter answers [getFirst] of
    [init] with [recs] and, if [init] then asks for the first record, that
    call with [firstRecord]. *)
Definition init_during_save (options : IDatasourceOptions)
    (recs : list ref) (firstRecord : option ref) (s : Session)
    : option (Session * Proc unit) :=
  let '(s1, pInit) := init options s in
  let '(s2, _) := save options s1 in
  match answerGetFirst (inr recs) (s2, pInit) with
  | Some (s3, Done r) => Some (s3, Done r)
  | Some x => answerGetRecord (inr firstRecord) x
  | None => None
  end.

(** ** The command surface *)

(** The command surface of the module. *)
Inductive Command : Type :=
| DoInit
| DoReposition (pos : Z)
| DoRepositionById (id : option JsValue)
| DoPrev
| DoNext
| DoEdit
| DoAdd
| DoCopy
| DoSave
| DoCancel
| DoUpdate (field : string) (value : JsValue).

Definition perform (options : IDatasourceOptions) (c : Command) : Action unit :=
  match c with
  | DoInit => init options
  | DoReposition pos => dispatch (reposition options pos) (fun _ => resolve tt)
  | DoRepositionById id => dispatch (repositionById options id) (fun _ => resolve tt)
  | DoPrev => prev options
  | DoNext => next options
  | DoEdit => commit edit resolve
  | DoAdd => commit add resolve
  | DoCopy => commit copy resolve
  | DoSave => save options
  | DoCancel => cancel
  | DoUpdate field value => commit (update field value) resolve
  end.

Definition is_save (c : Command) : bool :=
  match c with
  | DoSave => true
  | _ => false
  end.

(** A field [update] of [id] to a value that is not the id the active
    record has. *)
Definition changes_id (c : Command) (s : Session) : bool :=
  match c, activeRecord (state s) with
  | DoUpdate field value, Some a =>
      bool_decide (field = "id"%string) &&
      negb (bool_decide (id_of (objects s) a = Some value))
  | _, _ => false
  end.

(** The field updates are committed one after the other, whether they
    complete or throw. *)
Definition updates (edits : list (string * JsValue)) (s : Session) : Session :=
  foldl (fun s e => fst (update (fst e) (snd e) s)) s edits.

(** ** Sessions and how they come about *)

(** An action that has been started and may be suspended. *)
Inductive Task : Type :=
| task {A : Type} (p : Proc A).

(** A session with the actions started on it so far. *)
Record Config : Type := mkConfig {
  session : Session;
  suspended : list Task
}.

(** The adapter returns objects that exist. *)
Definition answer_exists (s : Session) (a : Answer) : Prop :=
  match a with
  | GotFirst (inr recs) => Forall (fun r => (r < length (objects s))%nat) recs
  | GotRecord (inr (Some r)) => (r < length (objects s))%nat
  | Persisted (inr r) => (r < length (objects s))%nat
  | _ => True
  end.

(** What can happen to a session: the presentation issues a command; the
    adapter answers the call some action is suspended at; the adapter
    creates an object.  The adapter does not write into objects. *)
Inductive step (options : IDatasourceOptions) : Config -> Config -> Prop :=
| step_command c s tasks :
    step options (mkConfig s tasks)
      (mkConfig (fst (perform options c s)) (task (snd (perform options c s)) :: tasks))
| step_answer {A} a s (p : Proc A) x tasks1 tasks2 :
    answer_exists s a ->
    answer a (s, p) = Some x ->
    step options (mkConfig s (tasks1 ++ task p :: tasks2))
      (mkConfig (fst x) (tasks1 ++ task (snd x) :: tasks2))
| step_adapter_object o s tasks :
    step options (mkConfig s tasks) (mkConfig (with_objects (objects s ++ [o]) s) tasks).

(** The sessions that come about from a new datasource. *)
Definition reachable (options : IDatasourceOptions) (c : Config) : Prop :=
  exists heap, rtc (step options) (mkConfig (createDatasource heap) []) c.

(** ** What [setActiveRecord] leaves behind *)

(** [findIndex] for a test that does not throw: the index of the first
    element that passes, counted from [i], or -1. *)
Fixpoint firstIndex_from {A} (test : A -> bool) (l : list A) (i : Z) : Z :=
  match l with
  | [] => -1
  | x :: l' => if test x then i else firstIndex_from test l' (i + 1)
  end.

(** Where [setActiveRecord] puts the pointer for a record that is not
    [null]. *)
Definition positionOf (h : list DataRecord) (recs : list ref) (r : ref) : Z :=
  firstIndex_from (fun x => bool_decide (id_of h x = id_of h r)) recs 0.

(** A record that is not [null], with a fresh copy as its original. *)
Definition selected (r : ref) (s : Session) : Session :=
  let h := objects s ++ [deref (objects s) r] in
  with_state (set_pointer (positionOf h (records (state s)) r))
    (with_state (set_originalRecord (Some (length (objects s))))
       (with_objects h (with_state (set_activeRecord (Some r)) s))).

(** A record that is not [null], the original kept. *)
Definition selected_keeping (r : ref) (s : Session) : Session :=
  with_state (set_pointer (positionOf (objects s) (records (state s)) r))
    (with_state (set_activeRecord (Some r)) s).

(** The writes [setActiveRecord] makes for [null] before it searches
    [records]. *)
Definition deselected (s : Session) : Session :=
  with_state (set_originalRecord (Some (length (objects s))))
    (with_objects (objects s ++ [∅]) (with_state (set_activeRecord None) s)).

(** What [setActiveRecord] has written when it was given [null]: no active
    record, a new empty object as the original, and the pointer at -1 if
    [records] is empty and untouched otherwise. *)
Definition absent_committed (before after : Session) : Prop :=
  activeRecord (state after) = None /\
  originalRecord (state after) = Some (length (objects before)) /\
  deref (objects after) (length (objects before)) = ∅ /\
  pointer (state after) = match records (state after) with
                          | [] => -1
                          | _ :: _ => pointer (state before)
                          end.

(** ** Properties of a session *)

(** [x] has the id of [a]. *)
Definition matches (s : Session) (a x : ref) : Prop :=
  id_of (objects s) x = id_of (objects s) a.

(** The pointer is -1 exactly when there is no active record or no loaded
    record has its id, and otherwise it is the index of the first loaded
    record with that id: the record at the pointer has the id, and no
    record before it has. *)
Definition pointer_consistent (s : Session) : Prop :=
  (pointer (state s) = -1 <->
   match activeRecord (state s) with
   | None => True
   | Some a => forall x, x ∈ records (state s) -> ~ matches s a x
   end) /\
  (forall a, activeRecord (state s) = Some a ->
     (exists x, x ∈ records (state s) /\ matches s a x) ->
     exists x, at_index (records (state s)) (pointer (state s)) = Some x /\
               matches s a x /\
               forall j y, 0 <= j < pointer (state s) ->
                           at_index (records (state s)) j = Some y -> ~ matches s a y).

(** The original record is an object of its own: it exists and it is not
    the active record. *)
Definition original_apart (s : Session) : Prop :=
  forall o, originalRecord (state s) = Some o ->
            (o < length (objects s))%nat /\ activeRecord (state s) ≠ Some o.

(** ** Properties of an action *)

(** [Q] holds of the outcome however the adapter answers, when the action
    runs alone. *)
Inductive runs_alone {A} (Q : Session -> Error + A -> Prop) : Session -> Proc A -> Prop :=
| alone_done s r :
    Q s r -> runs_alone Q s (Done r)
| alone_getFirst s columns count signal k :
    (forall a, runs_alone Q (fst (k a s)) (snd (k a s))) ->
    runs_alone Q s (AwaitGetFirst columns count signal k)
| alone_getRecord s id columns signal k :
    (forall a, runs_alone Q (fst (k a s)) (snd (k a s))) ->
    runs_alone Q s (AwaitGetRecord id columns signal k)
| alone_create s record k :
    (forall a, runs_alone Q (fst (k a s)) (snd (k a s))) ->
    runs_alone Q s (AwaitCreate record k)
| alone_update s record original k :
    (forall a, runs_alone Q (fst (k a s)) (snd (k a s))) ->
    runs_alone Q s (AwaitUpdate record original k).

(** The pointer is consistent whenever the action completes. *)
Definition consistent_if_done {A} (s : Session) (r : Error + A) : Prop :=
  match r with
  | inr _ => pointer_consistent s
  | inl _ => True
  end.

(** Whenever the action is resumed in a session where [Inv] holds, [Inv]
    holds when it suspends again or settles. *)
Inductive keeps {A} (Inv : Session -> Prop) : Proc A -> Prop :=
| keeps_done r : keeps Inv (Done r)
| keeps_getFirst columns count signal k :
    (forall a s, Inv s -> answer_exists s (GotFirst a) -> Inv (fst (k a s))) ->
    (forall a s, Inv s -> answer_exists s (GotFirst a) -> keeps Inv (snd (k a s))) ->
    keeps Inv (AwaitGetFirst columns count signal k)
| keeps_getRecord id columns signal k :
    (forall a s, Inv s -> answer_exists s (GotRecord a) -> Inv (fst (k a s))) ->
    (forall a s, Inv s -> answer_exists s (GotRecord a) -> keeps Inv (snd (k a s))) ->
    keeps Inv (AwaitGetRecord id columns signal k)
| keeps_create record k :
    (forall a s, Inv s -> answer_exists s (Persisted a) -> Inv (fst (k a s))) ->
    (forall a s, Inv s -> answer_exists s (Persisted a) -> keeps Inv (snd (k a s))) ->
    keeps Inv (AwaitCreate record k)
| keeps_update record original k :
    (forall a s, Inv s -> answer_exists s (Persisted a) -> Inv (fst (k a s))) ->
    (forall a s, Inv s -> answer_exists s (Persisted a) -> keeps Inv (snd (k a s))) ->
    keeps Inv (AwaitUpdate record original k).

(** The action keeps [Inv] from its start on. *)
Definition safe {A} (Inv : Session -> Prop) (act : Action A) : Prop :=
  forall s, Inv s -> Inv (fst (act s)) /\ keeps Inv (snd (act s)).

Definition task_keeps (Inv : Session -> Prop) (t : Task) : Prop :=
  match t with
  | task p => keeps Inv p
  end.

(** ** A concrete session *)

(** The scenario of the spec: the adapter lists three records with ids 1,
    2 and 3, and has detail objects for the first two. *)
Definition demoOptions : IDatasourceOptions :=
  {| collectionRecordFields := None; activeRecordFields := None; batchSize := None |}.

Definition demoRecord (id : Z) : DataRecord := {[ "id"%string := JsNumber id ]}.

Definition demoDetail (id : Z) (name : string) : DataRecord :=
  <[ "name"%string := JsString name ]> (demoRecord id).

Definition demoHeap : list DataRecord :=
  [demoRecord 1; demoRecord 2; demoRecord 3; demoDetail 1 "a"; demoDetail 2 "b"].

(** The adapter answers; an answer that does not fit is ignored. *)
Definition resume {A} (a : Answer) (x : Session * Proc A) : Session * Proc A :=
  default x (answer a x).

(** [init] has run on a new datasource: the three records are loaded and
    the detail object of the first one is active. *)
Definition demoLoaded : Session * Proc unit :=
  resume (GotRecord (inr (Some 3%nat)))
    (resume (GotFirst (inr [0%nat; 1%nat; 2%nat]))
       (perform demoOptions DoInit (createDatasource demoHeap))).

Definition demoBrowsing : Session := fst demoLoaded.

Definition demoConfig : Config := mkConfig demoBrowsing [task (snd demoLoaded)].

(** ... and then [edit]. *)
Definition demoEditing : Session := fst (edit demoBrowsing).

(** ... or [next], the adapter returning the detail object of the second
    record. *)
Definition demoSecond : Session :=
  fst (resume (GotRecord (inr (Some 4%nat))) (perform demoOptions DoNext demoBrowsing)).

(** [init] is overtaken by [repositionById] while it fetches the first
    record, so it commits the batch but no active record; then [add]. *)
Definition demoAddingWithoutOriginal : Session :=
  let started := resume (GotFirst (inr [0%nat; 1%nat; 2%nat]))
                   (init demoOptions (createDatasource demoHeap)) in
  let overtaking := repositionById demoOptions (Some (JsNumber 2)) (fst started) in
  let settled := resume (GotRecord (inr (Some 3%nat))) (fst overtaking, snd started) in
  fst (add (fst settled)).

(** ** Kinds of commands *)

(** The commands that are for Browse mode only: moving the pointer and
    entering an edit mode. *)
Definition needs_browse (c : Command) : bool :=
  match c with
  | DoReposition _ | DoRepositionById _ | DoPrev | DoNext | DoEdit | DoAdd | DoCopy => true
  | _ => false
  end.

(** The commands that are for the edit modes only. *)
Definition needs_editing (c : Command) : bool :=
  match c with
  | DoSave | DoCancel | DoUpdate _ _ => true
  | _ => false
  end.

(** The mode [errorUnexpectedMode] is told was expected. *)
Definition expected_by (c : Command) : option UpdateMode :=
  match c with
  | DoSave | DoCancel => None
  | _ => Some Browse
  end.

(** [prev] with the pointer at most 0 and [next] with no record after the
    pointer dispatch nothing. *)
Definition has_nowhere_to_go (c : Command) (s : Session) : bool :=
  match c with
  | DoPrev => negb (0 <? pointer (state s))
  | DoNext => negb (pointer (state s) + 1 <? Z.of_nat (length (records (state s))))
  | _ => false
  end.

(** ** Overlapping [init] *)

(** [init] is started and the adapter answers its [getFirst] with [recs];
    while [init] waits for the first record, [repositionById] is started;
    then the adapter answers the [getRecord] of [init]. *)
Definition init_overtaken_by_repositionById (options : IDatasourceOptions)
    (recs : list ref) (id : option JsValue) (firstRecord : GetRecordAnswer) (s : Session)
    : option (Session * Proc unit) :=
  match answerGetFirst (inr recs) (init options s) with
  | Some (s1, pInit) =>
      let '(s2, _) := repositionById options id s1 in
      answerGetRecord firstRecord (s2, pInit)
  | None => None
  end.

(** The objects exist. *)
Definition all_exist (s : Session) (refs : list ref) : Prop :=
  Forall (fun r => (r < length (objects s))%nat) refs.

(** No two loaded records have the same id. *)
Definition ids_unique (s : Session) : Prop :=
  NoDup (id_of (objects s) <$> records (state s)).

(** [repositionById] is started; while it waits for its record, [init] is
    started; then the adapter answers the [getRecord] of [repositionById],
    before it answers the [getFirst] of [init]. *)
Definition repositionById_overtaken_by_init (options : IDatasourceOptions)
    (id : option JsValue) (newRecord : GetRecordAnswer) (s : Session)
    : option (Session * Proc bool) :=
  let '(s1, pReposition) := repositionById options id s in
  let '(s2, _) := init options s1 in
  answerGetRecord newRecord (s2, pReposition).

(** ** Properties that outlast every resumption *)

(** However the action is resumed from now on, it keeps [Inv] where [Inv]
    holds; unlike [keeps], this also speaks of what the action does after
    it was resumed in a session where [Inv] does not hold. *)
Inductive preserves {A} (Inv : Session -> Prop) : Proc A -> Prop :=
| preserves_done r : preserves Inv (Done r)
| preserves_getFirst columns count signal k :
    (forall a s, Inv s -> Inv (fst (k a s))) ->
    (forall a s, preserves Inv (snd (k a s))) ->
    preserves Inv (AwaitGetFirst columns count signal k)
| preserves_getRecord id columns signal k :
    (forall a s, Inv s -> Inv (fst (k a s))) ->
    (forall a s, preserves Inv (snd (k a s))) ->
    preserves Inv (AwaitGetRecord id columns signal k)
| preserves_create record k :
    (forall a s, Inv s -> Inv (fst (k a s))) ->
    (forall a s, preserves Inv (snd (k a s))) ->
    preserves Inv (AwaitCreate record k)
| preserves_update record original k :
    (forall a s, Inv s -> Inv (fst (k a s))) ->
    (forall a s, preserves Inv (snd (k a s))) ->
    preserves Inv (AwaitUpdate record original k).

(** The action keeps [Inv], started anywhere. *)
Definition steady {A} (Inv : Session -> Prop) (act : Action A) : Prop :=
  forall s, (Inv s -> Inv (fst (act s))) /\ preserves Inv (snd (act s)).

Definition task_preserves (Inv : Session -> Prop) (t : Task) : Prop :=
  match t with
  | task p => preserves Inv p
  end.

Definition is_locked (s : Session) : Prop := locked (state s) = true.

(** [add] or [copy]. *)
Definition entersNewRecord (enter : Commit unit) : Prop := enter = add \/ enter = copy.

(** * The screen route connector

    [src/components/system/screen-route-connector.vue]: the two watchers
    that keep the router's path and the active screen of the screens store
    in step.  A watcher runs to its end; what it commits to the store or
    asks of the router is its result. *)

Module ScreenRouteConnector.

Import Stdlib.Strings.Ascii.

(** [str.split(sep)] for a separator of one character, as the first piece
    and the pieces after it: the array [split] returns is never empty. *)
Fixpoint split (sep : Ascii.ascii) (str : string) : string * list string :=
  match str with
  | EmptyString => (EmptyString, [])
  | String c str' =>
      let '(first, rest) := split sep str' in
      if bool_decide (c = sep) then (EmptyString, first :: rest)
      else (String c first, rest)
  end.

(** [str.startsWith(searchString)]. *)
Definition startsWith (str searchString : string) : bool := String.prefix searchString str.

(** The character occurs in the string. *)
Fixpoint occurs (c : Ascii.ascii) (str : string) : bool :=
  match str with
  | EmptyString => false
  | String c' str' => bool_decide (c' = c) || occurs c str'
  end.

Section Connector.

(** The type of screen ids, compared with [===]; the screens store that
    hands them out is not part of the sources. *)
Context {Id : Type} `{EqDecision Id}.

(** [IScreen] of [store/screens], which is not part of the sources: the
    fields the connector reads. *)
Record IScreen : Type := {
  id : Id;
  route : string
}.

(** [ITreeItem] of [program-tree.vue], which is not part of the sources:
    the fields the connector reads. *)
Record ITreeItem : Type := {
  item_route : string;
  item_screenComponent : string;
  item_label : string;
  item_labelTranslatable : bool
}.

(** The payload of [of1Screens/openScreen], as the object literal has it. *)
Record IOpenScreenCommand : Type := {
  screenComponent : string;
  open_route : string;
  closable : bool;
  label : string;
  labelTranslateable : bool;
  switchNow : bool
}.

(** What a watcher commits to the store. *)
Inductive StoreCommit : Type :=
| activateScreen (screenId : Id)
| openScreen (command : IOpenScreenCommand).

(** [if (page.id === this.activeScreen.id) return; commit(activateScreen)].
    [activeScreen] can be absent, as [screenUpdate] reckons with; reading
    its [id] then throws. *)
Definition activateUnlessActive (page : IScreen) (activeScreen : option IScreen)
    : Error + option StoreCommit :=
  match activeScreen with
  | None => inl TypeError
  | Some active =>
      if bool_decide (id page = id active) then inr None
      else inr (Some (activateScreen (id page)))
  end.

Definition routeUpdate (path : string) (screens : list IScreen)
    (activeScreen : option IScreen) (itemTable : option (list ITreeItem))
    : Error + option StoreCommit :=
  match snd (split "/"%char path) with
  | [] => inr None
  | routeSegment :: _ =>
      match find (fun screen => bool_decide (route screen = routeSegment)) screens with
      | Some exactMatchingPage => activateUnlessActive exactMatchingPage activeScreen
      | None =>
          let baseRoute := fst (split "+"%char routeSegment) in
          let routeEvader := (baseRoute ++ "+")%string in
          match find (fun screen => bool_decide (route screen = baseRoute)
                                    || startsWith (route screen) routeEvader) screens with
          | Some alternateMatchingPage =>
              activateUnlessActive alternateMatchingPage activeScreen
          | None =>
              match
                match itemTable with
                | Some table => find (fun item => bool_decide (item_route item = baseRoute)) table
                | None => None
                end
              with
              | None => inl (error "Screen with that route could not be found!")
              | Some itemToOpen =>
                  inr (Some (openScreen
                    {| screenComponent := item_screenComponent itemToOpen;
                       open_route := item_route itemToOpen;
                       closable := true;
                       label := item_label itemToOpen;
                       labelTranslateable := item_labelTranslatable itemToOpen;
                       switchNow := true |}))
              end
          end
      end
  end.

(** The path [screenUpdate] asks the router to replace the current one
    with, if any. *)
Definition screenUpdate (activeScreen : option IScreen) (currentPath : string)
    : option string :=
  match activeScreen with
  | None => Some EmptyString
  | Some active =>
      let path := ("/" ++ route active)%string in
      if bool_decide (currentPath = path) then None else Some path
  end.

End Connector.

Arguments IScreen Id : clear implicits.
Arguments StoreCommit Id : clear implicits.

End ScreenRouteConnector.

(** ** More of the concrete session *)

(** The loaded session with [edit] issued, and then [save]. *)
Definition demoEditingConfig : Config :=
  mkConfig (fst (perform demoOptions DoEdit demoBrowsing))
           (task (snd (perform demoOptions DoEdit demoBrowsing)) :: suspended demoConfig).

Definition demoSavingConfig : Config :=
  mkConfig (fst (perform demoOptions DoSave (session demoEditingConfig)))
           (task (snd (perform demoOptions DoSave (session demoEditingConfig)))
              :: suspended demoEditingConfig).

(** Two open screens and the tree item of a third. *)
Definition demoScreens : list (ScreenRouteConnector.IScreen Z) :=
  [ {| ScreenRouteConnector.id := 1; ScreenRouteConnector.route := "" |};
    {| ScreenRouteConnector.id := 2; ScreenRouteConnector.route := "customers" |} ].

Definition demoItems : list ScreenRouteConnector.ITreeItem :=
  [ {| ScreenRouteConnector.item_route := "orders";
       ScreenRouteConnector.item_screenComponent := "Orders";
       ScreenRouteConnector.item_label := "Orders";
       ScreenRouteConnector.item_labelTranslatable := true |} ].

(** * Properties *)

(** ** Stores *)

Lemma deref_alloc_old (h : list DataRecord) (o : DataRecord) (r : ref) :
  (r < length h)%nat -> deref (h ++ [o]) r = deref h r.
Proof. intros Hr. unfold deref. by rewrite lookup_app_l. Qed.

Lemma deref_alloc_new (h : list DataRecord) (o : DataRecord) :
  deref (h ++ [o]) (length h) = o.
Proof.
  unfold deref. rewrite lookup_app_r by lia.
  by replace (length h - length h)%nat with 0%nat by lia.
Qed.

Lemma deref_insert_ne (h : list DataRecord) (o : DataRecord) (r r' : ref) :
  r ≠ r' -> deref (<[r := o]> h) r' = deref h r'.
Proof. intros Hr. unfold deref. by rewrite list_lookup_insert_ne. Qed.

Lemma aborted_new (cs : list bool) (s : Session) :
  controllers s = cs ++ [false] -> aborted s (length cs) = false.
Proof.
  intros H. unfold aborted. rewrite H, lookup_app_r by lia.
  by replace (length cs - length cs)%nat with 0%nat by lia.
Qed.

Lemma abortIfAny_state c s : state (abortIfAny c s) = state s.
Proof. by destruct c. Qed.

Lemma abortIfAny_objects c s : objects (abortIfAny c s) = objects s.
Proof. by destruct c. Qed.

(** ** [findIndex] with a callback that does not throw *)

Lemma findIndex_from_total {A} (test : A -> bool) (l : list A) (i : Z) :
  findIndex_from (fun x => inr (test x)) l i = inr (firstIndex_from test l i).
Proof.
  revert i. induction l as [|x l IH]; intros i; simpl; [done|].
  destruct (test x); [done|]. apply IH.
Qed.

Lemma findIndex_sameId_some h recs r :
  findIndex (sameId h (Some r)) recs = inr (positionOf h recs r).
Proof. apply findIndex_from_total. Qed.

Lemma findIndex_sameId_none h recs :
  findIndex (sameId h None) recs =
  match recs with [] => inr (-1) | _ :: _ => inl TypeError end.
Proof. by destruct recs. Qed.

Lemma at_index_Some {A} (l : list A) (pos : Z) (x : A) :
  at_index l pos = Some x ->
  0 <= pos < Z.of_nat (length l) /\ l !! Z.to_nat pos = Some x.
Proof.
  unfold at_index. destruct (0 <=? pos) eqn:Hpos; [|done]. apply Z.leb_le in Hpos.
  intros H. split; [|done]. apply lookup_lt_Some in H. lia.
Qed.

Lemma firstIndex_from_range {A} (test : A -> bool) (l : list A) (i : Z) :
  0 <= i ->
  firstIndex_from test l i = -1 \/
  i <= firstIndex_from test l i < i + Z.of_nat (length l).
Proof.
  revert i. induction l as [|x l IH]; intros i Hi; simpl; [by left|].
  destruct (test x); [right; lia|].
  destruct (IH (i + 1)) as [H|H]; [lia|by left|right; lia].
Qed.

Lemma firstIndex_from_none {A} (test : A -> bool) (l : list A) (i : Z) :
  0 <= i ->
  firstIndex_from test l i = -1 <-> forall x, x ∈ l -> test x = false.
Proof.
  revert i. induction l as [|x l IH]; intros i Hi; simpl.
  - split; [|done]. intros _ x Hx. by apply elem_of_nil in Hx.
  - destruct (test x) eqn:Hx.
    + split; [lia|]. intros H. specialize (H x (list_elem_of_here _ _)). congruence.
    + rewrite IH by lia. split.
      * intros H y Hy. apply elem_of_cons in Hy as [->|Hy]; auto.
      * intros H y Hy. apply H. by apply list_elem_of_further.
Qed.

Lemma firstIndex_from_found {A} (test : A -> bool) (l : list A) (i : Z) :
  0 <= i -> firstIndex_from test l i ≠ -1 ->
  exists x, l !! Z.to_nat (firstIndex_from test l i - i) = Some x /\ test x = true /\
    forall j y, (j < Z.to_nat (firstIndex_from test l i - i))%nat ->
                l !! j = Some y -> test y = false.
Proof.
  revert i. induction l as [|x l IH]; intros i Hi Hne; simpl in *; [done|].
  destruct (test x) eqn:Hx.
  - exists x. replace (i - i) with 0 by lia. simpl. split; [done|]. split; [done|].
    intros j y Hj. lia.
  - destruct (IH (i + 1)) as (y & Hy & Hty & Hfirst); [lia|done|].
    destruct (firstIndex_from_range test l (i + 1)) as [H|H]; [lia|done|].
    exists y.
    replace (Z.to_nat (firstIndex_from test l (i + 1) - i))
      with (S (Z.to_nat (firstIndex_from test l (i + 1) - (i + 1)))) by lia.
    simpl. split; [done|]. split; [done|].
    intros [|j] z Hj Hz; simpl in Hz.
    + congruence.
    + eapply Hfirst; [|done]. lia.
Qed.

(** ** The mutations, step by step *)

Ltac unfold_commit :=
  unfold bind, get, throw, modify, ret, new_object, alloc, commit, resolve, reject,
    discard in *.

Lemma setActiveRecord_locked record preserveOriginal s :
  locked (state s) = true ->
  setActiveRecord record preserveOriginal s = (s, inl errorLocked).
Proof. intros H. unfold setActiveRecord. unfold_commit. by rewrite H. Qed.

Lemma setActiveRecord_some r s :
  locked (state s) = false ->
  setActiveRecord (Some r) false s = (selected r s, inr tt).
Proof.
  intros H. unfold setActiveRecord, selected. unfold_commit. rewrite H. simpl.
  by rewrite findIndex_sameId_some.
Qed.

Lemma setActiveRecord_some_keeping r s :
  locked (state s) = false ->
  setActiveRecord (Some r) true s = (selected_keeping r s, inr tt).
Proof.
  intros H. unfold setActiveRecord, selected_keeping. unfold_commit. rewrite H. simpl.
  by rewrite findIndex_sameId_some.
Qed.

Lemma setActiveRecord_none s :
  locked (state s) = false ->
  setActiveRecord None false s =
  match records (state s) with
  | [] => (with_state (set_pointer (-1)) (deselected s), inr tt)
  | _ :: _ => (deselected s, inl TypeError)
  end.
Proof.
  intros H. unfold setActiveRecord, deselected. unfold_commit. rewrite H. simpl.
  rewrite findIndex_sameId_none. by destruct (records (state s)).
Qed.

Lemma setUpdateMode_unlocked mode s :
  locked (state s) = false ->
  setUpdateMode mode s = (with_state (set_updateMode mode) s, inr tt).
Proof. intros H. unfold setUpdateMode. unfold_commit. by rewrite H. Qed.

Lemma setUpdateMode_locked mode s :
  locked (state s) = true -> setUpdateMode mode s = (s, inl errorLocked).
Proof. intros H. unfold setUpdateMode. unfold_commit. by rewrite H. Qed.

Lemma lock_eq s :
  lock s = if locked (state s) then (s, inl errorLocked)
           else (with_state (set_locked true) s, inr tt).
Proof. unfold lock. unfold_commit. by destruct (locked (state s)). Qed.

Lemma unlock_eq s :
  unlock s = if locked (state s) then (s, inl (error "Datasource is not locked."))
             else (with_state (set_locked false) s, inr tt).
Proof. unfold unlock. unfold_commit. by destruct (locked (state s)). Qed.

(** ** The lock *)

(** C6.  What [lock] and [unlock] do, by the value of [locked]: [lock]
    throws the locked error on a locked session and sets the flag on an
    unlocked one; [unlock] throws "Datasource is not locked." on a LOCKED
    session, leaving it locked, and on an unlocked session completes
    without error. *)
Theorem unlock_throws_when_locked (s : Session) :
  lock s = (if locked (state s) then (s, inl errorLocked)
            else (with_state (set_locked true) s, inr tt)) /\
  unlock s = (if locked (state s)
              then (s, inl (error "Datasource is not locked."))
              else (with_state (set_locked false) s, inr tt)).
Proof. split; [apply lock_eq | apply unlock_eq]. Qed.

(** ** [edit] *)

Lemma edit_unlocked_browse s :
  locked (state s) = false -> updateMode (state s) = Browse ->
  edit s = (with_state (set_updateMode Update) s, inr tt).
Proof.
  intros Hl Hm. unfold edit, setUpdateMode. unfold_commit.
  rewrite Hl, Hm. simpl. by rewrite Hl.
Qed.

(** C8.  In Browse mode and unlocked, [edit] completes without error and
    sets the mode to Update whether or not there is an original record;
    nothing else changes. *)
Theorem edit_enters_update_without_original (s : Session) :
  locked (state s) = false -> updateMode (state s) = Browse ->
  edit s = (with_state (set_updateMode Update) s, inr tt).
Proof. apply edit_unlocked_browse. Qed.

(** ** [save] *)

Section Save.

Variable options : IDatasourceOptions.

(** However the adapter answers, [save] ends in the throw of [unlock]. *)
Lemma save_settles_locked s active answer :
  locked (state s) = false ->
  updateMode (state s) ≠ Browse ->
  activeRecord (state s) = Some active ->
  (updateMode (state s) = Update -> is_Some (originalRecord (state s))) ->
  answerPersist answer (save options s) =
  Some (with_state (set_locked true) s, Done (inl (error "Datasource is not locked."))).
Proof.
  intros Hl Hm Ha Ho. unfold save. rewrite Hl, Ha, lock_eq, Hl.
  rewrite bool_decide_eq_false_2 by done. simpl.
  destruct (updateMode (state s)) eqn:Hmode; try done.
  - destruct Ho as [o Ho]; [done|]. rewrite Ho. simpl.
    destruct answer; simpl; unfold save_finally, commit; by rewrite unlock_eq.
  - destruct answer; simpl; unfold save_finally, commit; by rewrite unlock_eq.
  - destruct answer; simpl; unfold save_finally, commit; by rewrite unlock_eq.
Qed.

(** C2.  When the adapter call of [save] fails with [e], [save] rejects
    with the error of [unlock] and not with [e], and the session stays
    locked; the other fields of the state are as before. *)
Theorem save_adapter_failure_keeps_lock (s : Session) (active : ref) (e : Error) :
  locked (state s) = false ->
  updateMode (state s) ≠ Browse ->
  activeRecord (state s) = Some active ->
  (updateMode (state s) = Update -> is_Some (originalRecord (state s))) ->
  exists s',
    answerPersist (inl e) (save options s) =
      Some (s', Done (inl (error "Datasource is not locked."))) /\
    locked (state s') = true /\
    updateMode (state s') = updateMode (state s) /\
    activeRecord (state s') = activeRecord (state s) /\
    originalRecord (state s') = originalRecord (state s) /\
    records (state s') = records (state s) /\
    pointer (state s') = pointer (state s).
Proof.
  intros Hl Hm Ha Ho. eexists. split; [by eapply save_settles_locked|]. done.
Qed.

(** C3.  When the adapter call of [save] succeeds with [newRecord], [save]
    still rejects with the error of [unlock]: the session stays locked, the
    returned record is not committed, and [init] is not run. *)
Theorem save_success_rejected_by_unlock (s : Session) (active newRecord : ref) :
  locked (state s) = false ->
  updateMode (state s) ≠ Browse ->
  activeRecord (state s) = Some active ->
  (updateMode (state s) = Update -> is_Some (originalRecord (state s))) ->
  exists s',
    answerPersist (inr newRecord) (save options s) =
      Some (s', Done (inl (error "Datasource is not locked."))) /\
    locked (state s') = true /\
    updateMode (state s') = updateMode (state s) /\
    activeRecord (state s') = Some active /\
    originalRecord (state s') = originalRecord (state s) /\
    objects s' = objects s.
Proof.
  intros Hl Hm Ha Ho. eexists. split; [by eapply save_settles_locked|]. done.
Qed.

End Save.

(** ** Overlapping fetches *)

Lemma repositionById_start options id s :
  locked (state s) = false -> updateMode (state s) = Browse ->
  exists s',
    repositionById options id s =
      (s', AwaitGetRecord id (activeRecordFields options) (length (controllers s))
             repositionById_afterGetRecord) /\
    state s' = state s /\ objects s' = objects s /\
    fetchAbortController s' = Some (length (controllers s)) /\
    length (controllers s') = S (length (controllers s)) /\
    aborted s' (length (controllers s)) = false.
Proof.
  intros Hl Hm. unfold repositionById. rewrite Hl, Hm. simpl.
  destruct (fetchAbortController s) as [c|]; simpl.
  - rewrite length_insert. eexists. split; [reflexivity|]. simpl.
    repeat split; try done.
    + rewrite length_app, length_insert. simpl. lia.
    + rewrite <- (length_insert (controllers s) c true). by eapply aborted_new.
  - eexists. split; [reflexivity|]. simpl. repeat split; try done.
    + rewrite length_app. simpl. lia.
    + by eapply aborted_new.
Qed.

(** C1.  [repositionById(A)] then [repositionById(B)], with the fetch of B
    answered before the fetch of A: both calls return [true] and the
    record fetched for A, which arrives last, ends up as the active
    record. *)
Theorem repositionById_applies_superseded_result
    (options : IDatasourceOptions) (s : Session)
    (idA idB : option JsValue) (recordA recordB : ref) :
  locked (state s) = false -> updateMode (state s) = Browse ->
  exists s',
    overtaken (repositionById options idA) (repositionById options idB)
      (inr (Some recordA)) (inr (Some recordB)) s =
      Some (s', Done (inr true), Done (inr true)) /\
    activeRecord (state s') = Some recordA.
Proof.
  intros Hl Hm.
  destruct (repositionById_start options idA s Hl Hm)
    as (s1 & HA & Hst1 & _ & _ & _ & _).
  destruct (repositionById_start options idB s1) as (s2 & HB & Hst2 & _ & Hf2 & _ & Hab2);
    [by rewrite Hst1 | by rewrite Hst1 |].
  unfold overtaken. rewrite HA, HB. simpl.
  rewrite Hf2, Hab2. simpl. unfold commit.
  rewrite setActiveRecord_some by (by rewrite Hst2, Hst1). simpl.
  rewrite Hf2. unfold aborted in *. simpl. rewrite Hab2. simpl.
  rewrite setActiveRecord_some by (simpl; by rewrite Hst2, Hst1). simpl.
  eexists. split; reflexivity.
Qed.

(** ** [init] resumed while [save] holds the lock *)

Lemma save_start_locks options s active :
  locked (state s) = false ->
  updateMode (state s) ≠ Browse ->
  activeRecord (state s) = Some active ->
  fst (save options s) = with_state (set_locked true) s.
Proof.
  intros Hl Hm Ha. unfold save. rewrite Hl, Ha, lock_eq, Hl.
  rewrite bool_decide_eq_false_2 by done. simpl.
  destruct (updateMode (state s)) eqn:Hmode; try done.
  destruct (originalRecord (state s)); [done|].
  unfold save_finally, commit. by rewrite unlock_eq.
Qed.

Lemma init_settle_locked recs record c s :
  locked (state s) = true -> aborted s c = false ->
  init_settle recs record c s =
  (with_state (set_records recs) s, Done (inl errorLocked)).
Proof.
  intros Hl Hc. unfold init_settle, commit, setCollection, modify. simpl.
  unfold aborted in *. simpl. rewrite Hc. simpl.
  by rewrite setActiveRecord_locked.
Qed.

(** While the session is locked, the mutations that test the flag throw
    the locked error and write nothing. *)
Lemma locked_mutations_rejected record preserveOriginal mode field value s :
  locked (state s) = true ->
  setActiveRecord record preserveOriginal s = (s, inl errorLocked) /\
  setUpdateMode mode s = (s, inl errorLocked) /\
  update field value s = (s, inl errorLocked) /\
  lock s = (s, inl errorLocked).
Proof.
  intros Hl. split; [by apply setActiveRecord_locked|].
  split; [by apply setUpdateMode_locked|]. split.
  - unfold update. unfold_commit. by rewrite Hl.
  - by rewrite lock_eq, Hl.
Qed.


(** C5.  [setCollection] does not look at the lock.  When [init] is
    resumed while [save] holds the lock, it replaces [records] by the batch
    the adapter returned and only then fails with the locked error. *)
Theorem init_replaces_records_while_locked
    (options : IDatasourceOptions) (s : Session) (active : ref)
    (recs : list ref) (firstRecord : option ref) :
  locked (state s) = false ->
  updateMode (state s) ≠ Browse ->
  activeRecord (state s) = Some active ->
  exists s',
    init_during_save options recs firstRecord s = Some (s', Done (inl errorLocked)) /\
    locked (state s') = true /\
    records (state s') = recs.
Proof.
  intros Hl Hm Ha. unfold init_during_save.
  unfold init at 1. rewrite Hl.
  set (s0 := abortIfAny (fetchAbortController _) _).
  assert (Hs0 : state s0 = state s).
  { unfold s0. by rewrite !abortIfAny_state. }
  unfold newAbortController. cbv zeta.
  set (s1 := with_batchAbortController _ _).
  assert (Hs1 : state s1 = state s) by done.
  pose proof (save_start_locks options s1 active) as Hsave.
  rewrite Hs1 in Hsave. specialize (Hsave Hl Hm Ha).
  destruct (save options s1) as [s2 pSave]. simpl in Hsave. subst s2.
  assert (Hab : aborted (with_state (set_locked true) s1) (length (controllers s0)) = false)
    by (eapply aborted_new; reflexivity).
  simpl. rewrite !Hab.
  destruct recs as [|firstRef rest]; simpl.
  - rewrite init_settle_locked.
    + eexists. split; [reflexivity|]. done.
    + done.
    + eapply aborted_new. reflexivity.
  - rewrite init_settle_locked.
    + eexists. split; [reflexivity|]. done.
    + done.
    + eapply aborted_new. reflexivity.
Qed.

(** ** [add] *)

Lemma elem_of_Object_keys (o : DataRecord) (key : string) :
  key ∈ Object_keys o <-> is_Some (o !! key).
Proof.
  unfold Object_keys. rewrite list_elem_of_fmap. split.
  - intros ([k v] & -> & H). apply elem_of_map_to_list in H. by exists v.
  - intros [v H]. exists (key, v). split; [done|]. by apply elem_of_map_to_list.
Qed.

Lemma clearAll_lookup (keys : list string) (record : DataRecord) (key : string) :
  clearAll keys record !! key =
  if bool_decide (key ∈ keys) then Some JsNull else record !! key.
Proof.
  unfold clearAll. revert record. induction keys as [|k keys IH]; intros record.
  - cbn [foldl]. case_bool_decide as H; [|done]. by apply elem_of_nil in H.
  - cbn [foldl]. rewrite IH. repeat case_bool_decide; try done.
    + exfalso. match goal with H : key ∉ k :: keys |- _ => apply H end.
      by apply list_elem_of_further.
    + match goal with H : key ∈ k :: keys |- _ => apply elem_of_cons in H as [->|?] end;
        [by rewrite lookup_insert_eq|done].
    + rewrite lookup_insert_ne; [done|]. intros ->.
      match goal with H : key ∉ key :: keys |- _ => apply H end. apply list_elem_of_here.
Qed.

Lemma clearAll_keys (o : DataRecord) :
  clearAll (Object_keys o) ∅ = (fun _ => JsNull) <$> o.
Proof.
  apply map_eq. intros key. rewrite clearAll_lookup, lookup_fmap.
  destruct (o !! key) as [v|] eqn:Hk.
  - rewrite bool_decide_eq_true_2; [done|]. apply elem_of_Object_keys. by exists v.
  - rewrite bool_decide_eq_false_2; [by rewrite lookup_empty|].
    rewrite elem_of_Object_keys, Hk. by intros [? ?].
Qed.

(** C7, amended.  In Browse mode, unlocked and with an active record,
    [add] sets the mode to Add and makes a new object the active record:
    it has the fields of the previous active record, each with value
    [null].  The original record and the objects that existed before are
    untouched, [records] is unchanged, and the pointer is recomputed as in
    every [setActiveRecord]: the index of the first loaded record whose id
    equals the id of the new record, or -1 when there is none. *)
Theorem add_clears_fields_and_recomputes_pointer (s : Session) (a : ref) :
  locked (state s) = false -> updateMode (state s) = Browse ->
  activeRecord (state s) = Some a ->
  exists s' a',
    add s = (s', inr tt) /\
    updateMode (state s') = Add /\
    activeRecord (state s') = Some a' /\
    deref (objects s') a' = (fun _ => JsNull) <$> deref (objects s) a /\
    dom (deref (objects s') a') = dom (deref (objects s) a) /\
    originalRecord (state s') = originalRecord (state s) /\
    (forall r, (r < length (objects s))%nat ->
               deref (objects s') r = deref (objects s) r) /\
    records (state s') = records (state s) /\
    locked (state s') = false /\
    pointer (state s') = positionOf (objects s') (records (state s')) a'.
Proof.
  intros Hl Hm Ha. unfold add. unfold_commit. rewrite Hl, Hm. simpl.
  rewrite setUpdateMode_unlocked by done. simpl. rewrite Ha.
  rewrite setActiveRecord_some_keeping by done.
  eexists _, (length (objects s)). split; [reflexivity|]. simpl.
  rewrite deref_alloc_new, clearAll_keys.
  repeat split; try done.
  - by rewrite dom_fmap_L.
  - intros r Hr. by apply deref_alloc_old.
Qed.

(** ** An action running alone *)

Lemma settle_runs_alone {A} (Q : Session -> Error + A -> Prop) answers s p s' r :
  runs_alone Q s p -> settle answers (s, p) = Some (s', r) -> Q s' r.
Proof.
  revert s p. induction answers as [|a rest IH]; intros s p Hp Hs.
  - destruct Hp; simpl in Hs; try discriminate. by inversion Hs; subst.
  - destruct Hp as [s r0 HQ|s ? ? ? k Hk|s ? ? ? k Hk|s ? k Hk|s ? ? k Hk];
      destruct a as [a|a|a]; simpl in Hs; try discriminate;
      specialize (Hk a); destruct (k a s) as [s1 p1]; eapply IH; eauto.
Qed.

Lemma runs_alone_andThen {A B} (Q : Session -> Error + B -> Prop) (f : A -> Action B) s p :
  runs_alone (fun s r => match r with
                         | inl e => Q s (inl e)
                         | inr a => runs_alone Q (fst (f a s)) (snd (f a s))
                         end) s p ->
  runs_alone Q (fst (andThen p f s)) (snd (andThen p f s)).
Proof.
  induction 1 as [s r HQ|s ? ? ? k Hk IH|s ? ? ? k Hk IH|s ? k Hk IH|s ? ? k Hk IH]; simpl.
  - destruct r as [e|a]; simpl; [by constructor|done].
  - constructor. intros a. apply IH.
  - constructor. intros a. apply IH.
  - constructor. intros a. apply IH.
  - constructor. intros a. apply IH.
Qed.

Lemma runs_alone_impl {A} (Q Q' : Session -> Error + A -> Prop) s p :
  (forall s r, Q s r -> Q' s r) -> runs_alone Q s p -> runs_alone Q' s p.
Proof. intros HQ. induction 1; constructor; auto. Qed.

(** ** The field [update] *)

Lemma deref_written (h : list DataRecord) (o : DataRecord) (r : ref) :
  (r < length h)%nat -> deref (<[r := o]> h) r = o.
Proof. intros Hr. unfold deref. by rewrite list_lookup_insert_eq. Qed.

Lemma update_completes (s : Session) (a : ref) (field : string) (value : JsValue) :
  locked (state s) = false ->
  updateMode (state s) ≠ Browse ->
  activeRecord (state s) = Some a ->
  is_Some (deref (objects s) a !! field) ->
  exists s',
    update field value s = (s', inr tt) /\
    state s' = state s /\
    deref (objects s') a !! field = Some value /\
    (forall f, f ≠ field -> deref (objects s') a !! f = deref (objects s) a !! f) /\
    dom (deref (objects s') a) = dom (deref (objects s) a) /\
    (forall r, r ≠ a -> deref (objects s') r = deref (objects s) r).
Proof.
  intros Hl Hm Ha Hf.
  assert (Hvalid : (a < length (objects s))%nat).
  { destruct Hf as [v Hv]. unfold deref in Hv.
    destruct (objects s !! a) as [o|] eqn:Ho; [by eapply lookup_lt_Some|].
    simpl in Hv. by rewrite lookup_empty in Hv. }
  unfold update, hasOwnProperty. unfold_commit. rewrite Hl, Ha.
  rewrite bool_decide_eq_false_2 by done.
  rewrite !(bool_decide_eq_true_2 (is_Some _)) by done. simpl.
  eexists. split; [reflexivity|]. simpl. split; [done|].
  rewrite deref_written by done.
  split; [by rewrite lookup_insert_eq|]. split; [|split].
  - intros f Hne. by rewrite lookup_insert_ne.
  - by apply dom_insert_lookup_L.
  - intros r Hr. by apply deref_insert_ne.
Qed.



Lemma update_cases (s : Session) (field : string) (value : JsValue) :
  fst (update field value s) = s \/
  exists a, locked (state s) = false /\ updateMode (state s) ≠ Browse /\
            activeRecord (state s) = Some a /\ is_Some (deref (objects s) a !! field).
Proof.
  unfold update. unfold_commit.
  destruct (locked (state s)) eqn:Hl; [by left|].
  case_bool_decide as Hm; [by left|].
  destruct (activeRecord (state s)) as [a|] eqn:Ha; [|by left].
  destruct (negb _); [by left|].
  case_bool_decide as Hf; [|by left].
  right. by exists a.
Qed.

(** A field [update] that leaves the id of the active record as it is
    leaves the id of every object as it is. *)
Lemma update_keeps_ids field value s :
  changes_id (DoUpdate field value) s = false ->
  state (fst (update field value s)) = state s /\
  forall r, id_of (objects (fst (update field value s))) r = id_of (objects s) r.
Proof.
  intros Hid.
  destruct (update_cases s field value) as [-> | (a & Hl & Hm & Ha & Hf)]; [done|].
  destruct (update_completes s a field value Hl Hm Ha Hf)
    as (s' & -> & Hst & Hnew & Hsame & _ & Hother).
  simpl. split; [done|]. intros r. unfold id_of.
  destruct (decide (r = a)) as [->|Hr]; [|by rewrite Hother].
  destruct (decide (field = "id"%string)) as [->|Hfield]; [|by apply Hsame].
  rewrite Hnew. unfold changes_id in Hid. rewrite Ha in Hid.
  rewrite bool_decide_eq_true_2 in Hid by done. simpl in Hid.
  apply negb_false_iff in Hid. apply bool_decide_eq_true in Hid. by rewrite <- Hid.
Qed.

(** ** The pointer *)

Lemma pointer_consistent_ext s s' :
  activeRecord (state s') = activeRecord (state s) ->
  records (state s') = records (state s) ->
  pointer (state s') = pointer (state s) ->
  objects s' = objects s ->
  pointer_consistent s -> pointer_consistent s'.
Proof.
  unfold pointer_consistent, matches. intros -> -> -> ->. done.
Qed.

(** Only the ids of the objects matter. *)
Lemma pointer_consistent_ids s s' :
  state s' = state s ->
  (forall r, id_of (objects s') r = id_of (objects s) r) ->
  pointer_consistent s -> pointer_consistent s'.
Proof.
  unfold pointer_consistent, matches. intros -> Hid [Hnone Hfirst]. split.
  - rewrite Hnone. destruct (activeRecord (state s)) as [a|]; [|done].
    split; intros H x Hx; specialize (H x Hx); by rewrite ?Hid in *.
  - intros a Ha (x & Hx & Hm). rewrite !Hid in Hm.
    destruct (Hfirst a Ha) as (y & Hy & Hmy & Hbefore); [by exists x|].
    exists y. split; [done|]. split; [by rewrite !Hid|].
    intros j z Hj Hz. rewrite !Hid. by eapply Hbefore.
Qed.

Lemma pointer_consistent_none s :
  activeRecord (state s) = None -> pointer (state s) = -1 -> pointer_consistent s.
Proof.
  intros Ha Hp. unfold pointer_consistent. rewrite Ha, Hp. split; [done|].
  intros a Habs. discriminate.
Qed.

Lemma createDatasource_consistent heap : pointer_consistent (createDatasource heap).
Proof. by apply pointer_consistent_none. Qed.

Lemma pointer_consistent_positionOf s a :
  activeRecord (state s) = Some a ->
  pointer (state s) = positionOf (objects s) (records (state s)) a ->
  pointer_consistent s.
Proof.
  intros Ha Hp. unfold pointer_consistent, matches. rewrite Ha, Hp. unfold positionOf.
  set (test := fun x => bool_decide (id_of (objects s) x = id_of (objects s) a)).
  assert (Hnone : firstIndex_from test (records (state s)) 0 = -1 <->
                  forall x, x ∈ records (state s) ->
                            id_of (objects s) x ≠ id_of (objects s) a).
  { rewrite firstIndex_from_none by lia. unfold test.
    split; intros H x Hx; specialize (H x Hx).
    - by apply bool_decide_eq_false in H.
    - by apply bool_decide_eq_false. }
  split; [done|].
  intros a' [= <-] (x & Hx & Hm).
  destruct (firstIndex_from_found test (records (state s)) 0)
    as (y & Hy & Hty & Hbefore); [lia| |].
  - intros Hno. by apply (proj1 Hnone Hno x).
  - destruct (firstIndex_from_range test (records (state s)) 0) as [Hr|Hr]; [lia| |].
    + exfalso. by apply (proj1 Hnone Hr x).
    + rewrite Z.sub_0_r in Hy, Hbefore. exists y. split; [|split].
      * unfold at_index.
        destruct (0 <=? _) eqn:Hle; [done|]. apply Z.leb_gt in Hle. lia.
      * unfold test in Hty. by apply bool_decide_eq_true in Hty.
      * intros j z Hj Hz. unfold at_index in Hz.
        destruct (0 <=? j) eqn:Hle; [|done].
        assert (Htz : test z = false) by (eapply Hbefore; [|exact Hz]; lia).
        unfold test in Htz. by apply bool_decide_eq_false in Htz.
Qed.

(** A consistent pointer is the index [findIndex] gives. *)
Lemma pointer_consistent_findIndex s a :
  pointer_consistent s ->
  activeRecord (state s) = Some a ->
  pointer (state s) = positionOf (objects s) (records (state s)) a.
Proof.
  intros [Hnone Hfirst] Ha. rewrite Ha in Hnone. unfold positionOf, matches in *.
  set (test := fun x => bool_decide (id_of (objects s) x = id_of (objects s) a)) in *.
  destruct (decide (firstIndex_from test (records (state s)) 0 = -1)) as [Hn|Hn].
  - rewrite Hn. apply Hnone. intros x Hx.
    apply (proj1 (firstIndex_from_none test _ 0 ltac:(lia))) with (x := x) in Hn; [|done].
    unfold test in Hn. by apply bool_decide_eq_false in Hn.
  - destruct (firstIndex_from_found test (records (state s)) 0)
      as (y & Hy & Hty & Hbefore); [lia|done|].
    destruct (firstIndex_from_range test (records (state s)) 0) as [Hr|Hr]; [lia|done|].
    rewrite Z.sub_0_r in Hy, Hbefore.
    assert (Hmy : id_of (objects s) y = id_of (objects s) a)
      by (unfold test in Hty; by apply bool_decide_eq_true in Hty).
    destruct (Hfirst a Ha) as (x & Hx & Hmx & Hnot).
    { exists y. split; [by eapply list_elem_of_lookup_2|done]. }
    destruct (at_index_Some _ _ _ Hx) as [Hp Hlx].
    destruct (Z.lt_trichotomy (pointer (state s))
                (firstIndex_from test (records (state s)) 0)) as [Hlt|[Heq|Hgt]]; [|done|].
    + assert (Htx : test x = false) by (eapply Hbefore; [|exact Hlx]; lia).
      unfold test in Htx. by apply bool_decide_eq_false in Htx.
    + exfalso. apply (Hnot (firstIndex_from test (records (state s)) 0) y); [lia| |done].
      unfold at_index. destruct (0 <=? _) eqn:Hle; [done|]. apply Z.leb_gt in Hle. lia.
Qed.

(** A [setActiveRecord] that completes leaves the pointer consistent. *)
Lemma setActiveRecord_consistent record preserveOriginal s s' :
  setActiveRecord record preserveOriginal s = (s', inr tt) ->
  pointer_consistent s' /\
  locked (state s') = false /\ updateMode (state s') = updateMode (state s).
Proof.
  unfold setActiveRecord. unfold_commit.
  destruct (locked (state s)) eqn:Hl; [discriminate|].
  destruct record as [r|], preserveOriginal; simpl.
  - rewrite findIndex_sameId_some. intros [= <-]. split; [|done].
    by apply (pointer_consistent_positionOf _ r).
  - rewrite findIndex_sameId_some. intros [= <-]. split; [|done].
    by apply (pointer_consistent_positionOf _ r).
  - rewrite findIndex_sameId_none. destruct (records (state s)) eqn:Hr; [|discriminate].
    intros [= <-]. split; [|done]. by apply pointer_consistent_none.
  - rewrite findIndex_sameId_none. destruct (records (state s)) eqn:Hr; [|discriminate].
    intros [= <-]. split; [|done]. by apply pointer_consistent_none.
Qed.

Lemma setUpdateMode_cases mode s :
  setUpdateMode mode s = (s, inl errorLocked) \/
  setUpdateMode mode s = (with_state (set_updateMode mode) s, inr tt).
Proof.
  destruct (locked (state s)) eqn:Hl.
  - left. by apply setUpdateMode_locked.
  - right. by apply setUpdateMode_unlocked.
Qed.

Lemma select_then_browse_consistent {A} record (v : A) s :
  runs_alone consistent_if_done
    (fst (commit (setActiveRecord record false) (fun _ =>
          commit (setUpdateMode Browse) (fun _ => resolve v)) s))
    (snd (commit (setActiveRecord record false) (fun _ =>
          commit (setUpdateMode Browse) (fun _ => resolve v)) s)).
Proof.
  unfold commit at 1 3.
  destruct (setActiveRecord record false s) as [s1 [e|[]]] eqn:Hset; simpl.
  - by constructor.
  - apply setActiveRecord_consistent in Hset as (Hc & _ & _).
    unfold commit, resolve.
    destruct (setUpdateMode_cases Browse s1) as [-> | ->]; simpl; constructor; simpl; [done|].
    by eapply pointer_consistent_ext; [..|exact Hc].
Qed.

Lemma init_settle_consistent recs record c s :
  aborted s c = false ->
  runs_alone consistent_if_done
    (fst (init_settle recs record c s)) (snd (init_settle recs record c s)).
Proof.
  intros Hc. unfold init_settle. unfold commit at 1 4. simpl.
  unfold aborted in *. simpl. rewrite Hc. simpl.
  apply (select_then_browse_consistent record tt).
Qed.

Lemma init_consistent options s :
  pointer_consistent s ->
  runs_alone consistent_if_done (fst (init options s)) (snd (init options s)).
Proof.
  intros Hs. unfold init.
  destruct (locked (state s)); [by constructor|].
  simpl. constructor. intros [e|recs]; simpl; [by constructor|].
  match goal with |- context [if ?b then _ else _] => destruct b end.
  - constructor. simpl. eapply pointer_consistent_ext; [..|exact Hs]; simpl;
      by rewrite ?abortIfAny_state, ?abortIfAny_objects.
  - destruct recs as [|firstRef rest]; simpl.
    + apply init_settle_consistent. eapply aborted_new. reflexivity.
    + constructor. intros [e|firstRecord]; simpl; [by constructor|].
      apply init_settle_consistent. eapply aborted_new. reflexivity.
Qed.

Lemma repositionById_consistent options id s :
  pointer_consistent s ->
  runs_alone consistent_if_done
    (fst (repositionById options id s)) (snd (repositionById options id s)).
Proof.
  intros Hs. unfold repositionById.
  destruct (locked (state s)); [by constructor|].
  destruct (negb _); [by constructor|].
  simpl. constructor. intros [e|newRecord]; simpl; [by constructor|].
  unfold commit, resolve.
  match goal with |- context [if ?b then _ else _] => destruct b end.
  - destruct (setActiveRecord newRecord false _) as [s1 [e|[]]] eqn:Hset; simpl;
      constructor; simpl; [done|].
    by apply setActiveRecord_consistent in Hset as (Hc & _ & _).
  - constructor. simpl. eapply pointer_consistent_ext; [..|exact Hs]; simpl;
      by rewrite ?abortIfAny_state, ?abortIfAny_objects.
Qed.

Lemma dispatch_consistent {A B} (callee : Action A) (v : A -> B) s :
  runs_alone consistent_if_done (fst (callee s)) (snd (callee s)) ->
  runs_alone consistent_if_done
    (fst (dispatch callee (fun a => resolve (v a)) s))
    (snd (dispatch callee (fun a => resolve (v a)) s)).
Proof.
  intros H. unfold dispatch. destruct (callee s) as [s1 p]. simpl in H.
  apply runs_alone_andThen. eapply runs_alone_impl; [|exact H].
  intros s2 [e|a]; simpl; [done|]. intros Hc. by constructor.
Qed.

Lemma reposition_consistent options pos s :
  pointer_consistent s ->
  runs_alone consistent_if_done
    (fst (reposition options pos s)) (snd (reposition options pos s)).
Proof.
  intros Hs. unfold reposition.
  destruct (locked (state s)); [by constructor|].
  destruct (negb _); [by constructor|].
  destruct (at_index _ _) as [record|]; [|by constructor].
  apply (dispatch_consistent _ (fun b => b)). by apply repositionById_consistent.
Qed.

Lemma commit_consistent (m : Commit unit) s :
  (forall s', m s = (s', inr tt) -> pointer_consistent s') ->
  runs_alone consistent_if_done (fst (commit m resolve s)) (snd (commit m resolve s)).
Proof.
  intros H. unfold commit, resolve. destruct (m s) as [s' [e|[]]]; simpl; constructor; simpl;
    auto.
Qed.

Lemma edit_consistent s s' :
  pointer_consistent s -> edit s = (s', inr tt) -> pointer_consistent s'.
Proof.
  intros Hs. unfold edit. unfold_commit.
  destruct (locked (state s)); [discriminate|].
  destruct (negb _); [discriminate|].
  destruct (setUpdateMode_cases Update s) as [-> | ->]; [discriminate|].
  intros [= <-]. by eapply pointer_consistent_ext; [..|exact Hs].
Qed.

Lemma add_consistent s s' : add s = (s', inr tt) -> pointer_consistent s'.
Proof.
  unfold add. unfold_commit.
  destruct (locked (state s)); [discriminate|].
  destruct (negb _); [discriminate|].
  destruct (setUpdateMode Add s) as [s1 [e|[]]]; [discriminate|]. simpl.
  intros H. by apply setActiveRecord_consistent in H as (Hc & _ & _).
Qed.

Lemma copy_consistent s s' : copy s = (s', inr tt) -> pointer_consistent s'.
Proof.
  unfold copy. unfold_commit.
  destruct (locked (state s)); [discriminate|].
  destruct (negb _); [discriminate|].
  destruct (setUpdateMode Copy s) as [s1 [e|[]]]; [discriminate|]. simpl.
  intros H. by apply setActiveRecord_consistent in H as (Hc & _ & _).
Qed.

Lemma cancel_consistent s :
  runs_alone consistent_if_done (fst (cancel s)) (snd (cancel s)).
Proof.
  unfold cancel.
  destruct (locked (state s)); [by constructor|].
  destruct (bool_decide _); [by constructor|].
  apply (select_then_browse_consistent _ tt).
Qed.

Lemma prev_consistent options s :
  pointer_consistent s ->
  runs_alone consistent_if_done (fst (prev options s)) (snd (prev options s)).
Proof.
  intros Hs. unfold prev. destruct (0 <? _); [|by constructor].
  apply (dispatch_consistent _ (fun _ => tt)). by apply reposition_consistent.
Qed.

Lemma next_consistent options s :
  pointer_consistent s ->
  runs_alone consistent_if_done (fst (next options s)) (snd (next options s)).
Proof.
  intros Hs. unfold next. destruct (_ <? _); [|by constructor].
  apply (dispatch_consistent _ (fun _ => tt)). by apply reposition_consistent.
Qed.

Lemma update_consistent field value s s' :
  changes_id (DoUpdate field value) s = false ->
  pointer_consistent s -> update field value s = (s', inr tt) -> pointer_consistent s'.
Proof.
  intros Hid Hs Hup. destruct (update_keeps_ids field value s Hid) as [Hst Hids].
  rewrite Hup in Hst, Hids. simpl in Hst, Hids.
  by apply (pointer_consistent_ids s s').
Qed.

(** C4, amended.  When a command other than [save], and other than a field
    [update] that gives the active record another [id], runs alone on a
    session whose pointer is consistent and completes without error, the
    pointer is consistent afterwards: it is -1 exactly when there is no
    active record or no loaded record has its id, and otherwise it is the
    index of the first loaded record with that id. *)
Theorem pointer_consistent_after_command
    (options : IDatasourceOptions) (c : Command) (answers : list Answer)
    (s s' : Session) :
  is_save c = false ->
  changes_id c s = false ->
  pointer_consistent s ->
  settle answers (perform options c s) = Some (s', inr tt) ->
  pointer_consistent s'.
Proof.
  intros Hc Hid Hs Hrun.
  assert (Halone : runs_alone consistent_if_done
                     (fst (perform options c s)) (snd (perform options c s))).
  { destruct c; simpl in Hc |- *; try discriminate.
    - by apply init_consistent.
    - apply (dispatch_consistent _ (fun _ => tt)). by apply reposition_consistent.
    - apply (dispatch_consistent _ (fun _ => tt)). by apply repositionById_consistent.
    - by apply prev_consistent.
    - by apply next_consistent.
    - apply commit_consistent. intros s1. by apply edit_consistent.
    - apply commit_consistent. apply add_consistent.
    - apply commit_consistent. apply copy_consistent.
    - apply cancel_consistent.
    - apply commit_consistent. intros s1. by apply update_consistent. }
  destruct (perform options c s) as [s1 p].
  by apply (settle_runs_alone _ _ _ _ _ _ Halone Hrun).
Qed.

(** ** Committing an absent record *)

Lemma init_settle_absent recs c s :
  locked (state s) = false -> aborted s c = false ->
  exists s',
    init_settle recs None c s =
      (s', Done match recs with [] => inr tt | _ :: _ => inl TypeError end) /\
    absent_committed s s' /\
    records (state s') = recs /\
    updateMode (state s') = match recs with
                            | [] => Browse
                            | _ :: _ => updateMode (state s)
                            end.
Proof.
  intros Hl Hc. unfold init_settle. unfold commit at 1. simpl.
  unfold aborted in *. simpl. rewrite Hc. simpl.
  unfold commit at 1. rewrite setActiveRecord_none by done. simpl.
  destruct recs as [|x rest].
  - unfold commit, resolve. rewrite setUpdateMode_unlocked by done.
    eexists. split; [reflexivity|]. unfold absent_committed. simpl.
    by rewrite deref_alloc_new.
  - eexists. split; [reflexivity|]. unfold absent_committed. simpl.
    by rewrite deref_alloc_new.
Qed.

(** C10, amended.  [setActiveRecord] given [null] on an unlocked session
    first writes [activeRecord = null] and a new empty object as
    [originalRecord].  Then, if [records] is empty, it sets the pointer to
    -1 and completes; only if [records] has an element, it throws a
    TypeError, leaving those two writes behind.  So [init] with an empty
    batch completes, in Browse mode with no active record and pointer -1;
    [init] whose first-record fetch returns nothing rejects with the
    TypeError after replacing [records]; [repositionById] whose fetch
    returns nothing and [cancel] without an original record reject with
    the TypeError when [records] is not empty and complete when it is
    empty. *)
Theorem absent_record_commit
    (options : IDatasourceOptions) (s : Session) (id : option JsValue)
    (firstRef : ref) (rest : list ref) :
  locked (state s) = false ->
  setActiveRecord None false s =
    match records (state s) with
    | [] => (with_state (set_pointer (-1)) (deselected s), inr tt)
    | _ :: _ => (deselected s, inl TypeError)
    end /\
  (exists s',
     settle [GotFirst (inr [])] (init options s) = Some (s', inr tt) /\
     absent_committed s s' /\ records (state s') = [] /\
     updateMode (state s') = Browse) /\
  (exists s',
     settle [GotFirst (inr (firstRef :: rest)); GotRecord (inr None)] (init options s) =
       Some (s', inl TypeError) /\
     absent_committed s s' /\ records (state s') = firstRef :: rest /\
     updateMode (state s') = updateMode (state s)) /\
  (updateMode (state s) = Browse ->
   exists s',
     settle [GotRecord (inr None)] (repositionById options id s) =
       Some (s', match records (state s) with
                 | [] => inr true
                 | _ :: _ => inl TypeError
                 end) /\
     absent_committed s s' /\ records (state s') = records (state s) /\
     updateMode (state s') = Browse) /\
  (updateMode (state s) ≠ Browse -> originalRecord (state s) = None ->
   exists s',
     cancel s = (s', Done match records (state s) with
                          | [] => inr tt
                          | _ :: _ => inl TypeError
                          end) /\
     absent_committed s s' /\ records (state s') = records (state s) /\
     updateMode (state s') = match records (state s) with
                             | [] => Browse
                             | _ :: _ => updateMode (state s)
                             end).
Proof.
  intros Hl. split; [by apply setActiveRecord_none|].
  assert (Hinit : forall recs, exists s1 c,
             answerGetFirst (inr recs) (init options s) =
               Some match recs with
                    | [] => init_settle recs None c s1
                    | x :: _ => (s1, AwaitGetRecord (id_of (objects s1) x)
                                       (activeRecordFields options) c
                                       (init_afterGetRecord recs c))
                    end /\
             state s1 = state s /\ objects s1 = objects s /\ aborted s1 c = false).
  { intros recs. unfold init. rewrite Hl. simpl.
    set (s0 := abortIfAny (fetchAbortController _) _).
    assert (Hs0 : state s0 = state s /\ objects s0 = objects s).
    { unfold s0. by rewrite !abortIfAny_state, !abortIfAny_objects. }
    destruct Hs0 as [Hst Hob].
    match goal with |- context [if ?b then _ else _] =>
      assert (Hab : b = false) by (eapply aborted_new; reflexivity) end.
    rewrite Hab.
    eexists _, _. split; [destruct recs; reflexivity|]. simpl.
    split; [done|]. split; [done|]. eapply aborted_new. reflexivity. }
  split; [|split; [|split]].
  - destruct (Hinit []) as (s1 & c & Hrun & Hst & Hob & Hc).
    destruct (init_settle_absent [] c s1) as (s' & Hset & Habs & Hrecs & Hmode);
      [by rewrite Hst|done|].
    exists s'. simpl. rewrite Hrun, Hset. split; [done|].
    unfold absent_committed in *. by rewrite <- Hst, <- Hob.
  - destruct (Hinit (firstRef :: rest)) as (s1 & c & Hrun & Hst & Hob & Hc).
    destruct (init_settle_absent (firstRef :: rest) c s1) as (s' & Hset & Habs & Hrecs & Hmode);
      [by rewrite Hst|done|].
    exists s'. simpl. rewrite Hrun. simpl. rewrite Hset. split; [done|].
    unfold absent_committed in *. by rewrite <- Hst, <- Hob.
  - intros Hm.
    destruct (repositionById_start options id s Hl Hm) as (s1 & Hrun & Hst & Hob & Hf & _ & Hab).
    simpl. rewrite Hrun. simpl. rewrite Hf, Hab. simpl.
    unfold commit. rewrite setActiveRecord_none by (by rewrite Hst).
    rewrite Hst. destruct (records (state s)) eqn:Hrecs; simpl.
    + eexists. split; [reflexivity|]. unfold absent_committed. simpl.
      rewrite Hob, deref_alloc_new, Hst, Hrecs. done.
    + eexists. split; [reflexivity|]. unfold absent_committed. simpl.
      rewrite Hob, deref_alloc_new, Hst, Hrecs. done.
  - intros Hm Ho. unfold cancel. rewrite Hl, Ho.
    rewrite bool_decide_eq_false_2 by done.
    unfold commit at 1. rewrite setActiveRecord_none by done.
    destruct (records (state s)) eqn:Hrecs; simpl.
    + unfold commit, resolve. rewrite setUpdateMode_unlocked by done.
      eexists. split; [reflexivity|]. unfold absent_committed. simpl.
      rewrite deref_alloc_new, Hrecs. done.
    + eexists. split; [reflexivity|]. unfold absent_committed. simpl.
      rewrite deref_alloc_new, Hrecs. done.
Qed.

(** ** Sessions *)

Lemma keeps_andThen {A B} (Inv : Session -> Prop) (p : Proc A) (f : A -> Action B) :
  keeps Inv p -> (forall a, safe Inv (f a)) ->
  forall s, Inv s -> Inv (fst (andThen p f s)) /\ keeps Inv (snd (andThen p f s)).
Proof.
  intros Hp Hf.
  induction Hp as [r|? ? ? k HI Hk IH|? ? ? k HI Hk IH|? k HI Hk IH|? ? k HI Hk IH];
    intros s Hs; simpl.
  - destruct r as [e|a]; [split; [done|constructor]|]. by apply Hf.
  - split; [done|]. constructor; intros a s' Hs' Ha; by apply IH; auto.
  - split; [done|]. constructor; intros a s' Hs' Ha; by apply IH; auto.
  - split; [done|]. constructor; intros a s' Hs' Ha; by apply IH; auto.
  - split; [done|]. constructor; intros a s' Hs' Ha; by apply IH; auto.
Qed.

Lemma safe_dispatch {A B} (Inv : Session -> Prop) (callee : Action A) (f : A -> Action B) :
  safe Inv callee -> (forall a, safe Inv (f a)) -> safe Inv (dispatch callee f).
Proof.
  intros Hc Hf s Hs. unfold dispatch. destruct (Hc s Hs) as [H1 H2].
  destruct (callee s) as [s1 p]. by apply keeps_andThen.
Qed.

Lemma safe_commit {A B} (Inv : Session -> Prop) (m : Commit A) (f : A -> Action B) s :
  (forall s' r, m s = (s', r) -> Inv s') -> (forall a, safe Inv (f a)) ->
  Inv (fst (commit m f s)) /\ keeps Inv (snd (commit m f s)).
Proof.
  intros Hm Hf. unfold commit. destruct (m s) as [s' [e|a]] eqn:Hms.
  - split; [by eapply Hm|constructor].
  - apply Hf. by eapply Hm.
Qed.

Lemma safe_resolve {A} (Inv : Session -> Prop) (a : A) : safe Inv (resolve a).
Proof. intros s Hs. split; [done|constructor]. Qed.

Lemma safe_reject {A} (Inv : Session -> Prop) (e : Error) : safe Inv (@reject A e).
Proof. intros s Hs. split; [done|constructor]. Qed.

(** ** The original record stays apart *)

Lemma original_apart_ext s s' :
  activeRecord (state s') = activeRecord (state s) ->
  originalRecord (state s') = originalRecord (state s) ->
  (length (objects s) <= length (objects s'))%nat ->
  original_apart s -> original_apart s'.
Proof.
  intros Ha Ho Hlen Hs o Hor. rewrite Ho in Hor. rewrite Ha.
  destruct (Hs o Hor) as [H1 H2]. split; [lia|done].
Qed.

Lemma setActiveRecord_apart record s s' r :
  (forall x, record = Some x -> (x < length (objects s))%nat) ->
  original_apart s ->
  setActiveRecord record false s = (s', r) ->
  original_apart s'.
Proof.
  intros Hrec Hs. destruct (locked (state s)) eqn:Hl.
  - rewrite setActiveRecord_locked by done. by intros [= <- <-].
  - destruct record as [x|].
    + rewrite setActiveRecord_some by done. intros [= <- <-].
      intros o. simpl. intros [= <-]. rewrite length_app. simpl.
      split; [lia|]. intros [= Hx]. specialize (Hrec x eq_refl). lia.
    + rewrite setActiveRecord_none by done.
      destruct (records (state s)); intros [= <- <-]; intros o; simpl; intros [= <-];
        rewrite length_app; simpl; (split; [lia|done]).
Qed.

Lemma add_apart s s' r : original_apart s -> add s = (s', r) -> original_apart s'.
Proof.
  intros Hs. unfold add. unfold_commit.
  destruct (locked (state s)) eqn:Hl; [by intros [= <- <-]|].
  destruct (negb _); [by intros [= <- <-]|].
  rewrite setUpdateMode_unlocked by done. simpl.
  rewrite setActiveRecord_some_keeping by done.
  intros [= <- <-]. intros o. simpl. intros Ho. destruct (Hs o Ho) as [H1 H2].
  rewrite length_app. split; [lia|]. intros [= Hx]. lia.
Qed.

Lemma copy_apart s s' r : original_apart s -> copy s = (s', r) -> original_apart s'.
Proof.
  intros Hs. unfold copy. unfold_commit.
  destruct (locked (state s)) eqn:Hl; [by intros [= <- <-]|].
  destruct (negb _); [by intros [= <- <-]|].
  rewrite setUpdateMode_unlocked by done. simpl.
  rewrite setActiveRecord_some_keeping by done.
  intros [= <- <-]. intros o. simpl. intros Ho. destruct (Hs o Ho) as [H1 H2].
  rewrite length_app. split; [lia|]. intros [= Hx]. lia.
Qed.

Lemma setUpdateMode_apart mode s s' r :
  original_apart s -> setUpdateMode mode s = (s', r) -> original_apart s'.
Proof.
  intros Hs. destruct (setUpdateMode_cases mode s) as [-> | ->]; by intros [= <- <-].
Qed.

Lemma edit_apart s s' r : original_apart s -> edit s = (s', r) -> original_apart s'.
Proof.
  intros Hs. unfold edit. unfold_commit.
  destruct (locked (state s)) eqn:Hl; [by intros [= <- <-]|].
  destruct (negb _); [by intros [= <- <-]|].
  by apply setUpdateMode_apart.
Qed.

Lemma update_apart field value s s' r :
  original_apart s -> update field value s = (s', r) -> original_apart s'.
Proof.
  intros Hs. unfold update. unfold_commit.
  destruct (locked (state s)) eqn:Hl; [by intros [= <- <-]|].
  destruct (bool_decide _); [by intros [= <- <-]|].
  destruct (activeRecord (state s)) as [a|] eqn:Ha; [|by intros [= <- <-]].
  destruct (negb _); [by intros [= <- <-]|].
  destruct (bool_decide _); intros [= <- <-]; [|done].
  eapply original_apart_ext; [..|exact Hs]; try done.
  simpl. by rewrite length_insert.
Qed.

Lemma unlock_apart s s' r : original_apart s -> unlock s = (s', r) -> original_apart s'.
Proof. intros Hs. rewrite unlock_eq. by destruct (locked (state s)); intros [= <- <-]. Qed.

Lemma commit_keeps {A B} (Inv : Session -> Prop) (m : Commit A) (f : A -> Action B) s :
  (forall s' e, m s = (s', inl e) -> Inv s') ->
  (forall s' a, m s = (s', inr a) -> Inv (fst (f a s')) /\ keeps Inv (snd (f a s'))) ->
  Inv (fst (commit m f s)) /\ keeps Inv (snd (commit m f s)).
Proof.
  intros He Ha. unfold commit. destruct (m s) as [s' [e|a]] eqn:Hms.
  - split; [by eapply He|constructor].
  - by apply Ha.
Qed.

Lemma init_settle_safe recs record c s :
  (forall x, record = Some x -> (x < length (objects s))%nat) ->
  original_apart s ->
  original_apart (fst (init_settle recs record c s)) /\
  keeps original_apart (snd (init_settle recs record c s)).
Proof.
  intros Hrec Hs. unfold init_settle.
  apply commit_keeps; [by intros s' e [=]|]. intros s1 [] [= <-].
  assert (Hs1 : original_apart (with_state (set_records recs) s)) by done.
  apply safe_commit.
  - intros s' r. destruct (negb _).
    + by apply setActiveRecord_apart.
    + by intros [= <- <-].
  - intros _ s2 Hs2. apply safe_commit; [|intros; apply safe_resolve].
    intros s' r. by apply setUpdateMode_apart.
Qed.

Section Apart.

Variable options : IDatasourceOptions.

Lemma init_safe : safe original_apart (init options).
Proof.
  intros s Hs. unfold init.
  destruct (locked (state s)); [by apply safe_reject|].
  simpl. split.
  - eapply original_apart_ext; [..|exact Hs]; simpl;
      by rewrite ?abortIfAny_state, ?abortIfAny_objects.
  - assert (Hk : forall a s1, original_apart s1 -> answer_exists s1 (GotFirst a) ->
        original_apart (fst (init_afterGetFirst options (length (controllers
           (abortIfAny (fetchAbortController (abortIfAny (batchAbortController s) s))
              (abortIfAny (batchAbortController s) s)))) a s1)) /\
        keeps original_apart (snd (init_afterGetFirst options (length (controllers
           (abortIfAny (fetchAbortController (abortIfAny (batchAbortController s) s))
              (abortIfAny (batchAbortController s) s)))) a s1))).
    { intros [e|recs] s1 Hs1 Ha; simpl; [by apply safe_reject|].
      destruct (aborted s1 _); [by apply safe_resolve|].
      destruct recs as [|firstRef rest]; simpl.
      - apply init_settle_safe; [done|]. by eapply original_apart_ext; [..|exact Hs1].
      - split; [by eapply original_apart_ext; [..|exact Hs1]|].
        constructor.
        + intros [e|firstRecord] s2 Hs2 Ha2; simpl; [done|].
          apply init_settle_safe; [|done]. intros x ->. exact Ha2.
        + intros [e|firstRecord] s2 Hs2 Ha2; simpl; [constructor|].
          apply init_settle_safe; [|done]. intros x ->. exact Ha2. }
    constructor; intros a s1 Hs1 Ha; by apply Hk.
Qed.

Lemma repositionById_safe id : safe original_apart (repositionById options id).
Proof.
  intros s Hs. unfold repositionById.
  destruct (locked (state s)); [by apply safe_reject|].
  destruct (negb _); [by apply safe_reject|].
  simpl. split.
  - eapply original_apart_ext; [..|exact Hs]; simpl;
      by rewrite ?abortIfAny_state, ?abortIfAny_objects.
  - assert (Hk : forall a s1, original_apart s1 -> answer_exists s1 (GotRecord a) ->
        original_apart (fst (repositionById_afterGetRecord a s1)) /\
        keeps original_apart (snd (repositionById_afterGetRecord a s1))).
    { intros [e|newRecord] s1 Hs1 Ha; simpl; [by apply safe_reject|].
      destruct (fetchAbortController s1); [|by apply safe_reject].
      destruct (negb _); [|by apply safe_resolve].
      apply safe_commit; [|intros; apply safe_resolve].
      intros s' r. apply setActiveRecord_apart; [|done]. intros x ->. exact Ha. }
    constructor; intros a s1 Hs1 Ha; by apply Hk.
Qed.

Lemma reposition_safe pos : safe original_apart (reposition options pos).
Proof.
  intros s Hs. unfold reposition.
  destruct (locked (state s)); [by apply safe_reject|].
  destruct (negb _); [by apply safe_reject|].
  destruct (at_index _ _); [|by apply safe_reject].
  apply safe_dispatch; [apply repositionById_safe|intros; apply safe_resolve|done].
Qed.

Lemma prev_safe : safe original_apart (prev options).
Proof.
  intros s Hs. unfold prev. destruct (0 <? _); [|by apply safe_resolve].
  apply safe_dispatch; [apply reposition_safe|intros; apply safe_resolve|done].
Qed.

Lemma next_safe : safe original_apart (next options).
Proof.
  intros s Hs. unfold next. destruct (_ <? _); [|by apply safe_resolve].
  apply safe_dispatch; [apply reposition_safe|intros; apply safe_resolve|done].
Qed.

Lemma save_finally_safe outcome s :
  (forall x, outcome = inr (Some x) -> (x < length (objects s))%nat) ->
  original_apart s ->
  original_apart (fst (save_finally options outcome s)) /\
  keeps original_apart (snd (save_finally options outcome s)).
Proof.
  intros Hout Hs. unfold save_finally. apply commit_keeps.
  - intros s1 e Hun. by eapply unlock_apart.
  - intros s1 [] Hun.
    assert (Hs1 : original_apart s1) by (by eapply unlock_apart).
    assert (Hobj : objects s1 = objects s).
    { rewrite unlock_eq in Hun. by destruct (locked (state s)); inversion Hun. }
    destruct outcome as [e|newRecord]; [by apply safe_reject|].
    apply safe_commit.
    + intros s' r. apply setActiveRecord_apart; [|done].
      intros x ->. rewrite Hobj. by apply Hout.
    + intros _. apply safe_dispatch; [apply init_safe|intros; apply safe_resolve].
Qed.

Lemma save_safe : safe original_apart (save options).
Proof.
  intros s Hs. unfold save.
  destruct (locked (state s)) eqn:Hl; [by apply safe_reject|].
  destruct (bool_decide _); [by apply safe_reject|].
  destruct (activeRecord (state s)) as [active|]; [|by apply safe_reject].
  rewrite lock_eq, Hl.
  assert (Hs1 : original_apart (with_state (set_locked true) s)) by done.
  assert (Hk : forall a s1, original_apart s1 -> answer_exists s1 (Persisted a) ->
      original_apart (fst (save_afterAdapter options a s1)) /\
      keeps original_apart (snd (save_afterAdapter options a s1))).
  { intros [e|newRecord] s1 Hs2 Ha; simpl.
    - by apply save_finally_safe.
    - apply save_finally_safe; [|done]. intros x [= <-]. exact Ha. }
  destruct (updateMode _).
  - destruct (originalRecord _).
    + split; [done|]. constructor; intros a s1 Hs2 Ha; by apply Hk.
    + by apply save_finally_safe.
  - split; [done|]. constructor; intros a s1 Hs2 Ha; by apply Hk.
  - split; [done|]. constructor; intros a s1 Hs2 Ha; by apply Hk.
  - by apply save_finally_safe.
Qed.

Lemma cancel_safe : safe original_apart cancel.
Proof.
  intros s Hs. unfold cancel.
  destruct (locked (state s)); [by apply safe_reject|].
  destruct (bool_decide _); [by apply safe_reject|].
  apply safe_commit.
  - intros s' r. apply setActiveRecord_apart; [|done].
    intros x Hx. by destruct (Hs x Hx).
  - intros _ s1 Hs1. apply safe_commit; [|intros; apply safe_resolve].
    intros s' r. by apply setUpdateMode_apart.
Qed.

Lemma perform_safe c : safe original_apart (perform options c).
Proof.
  destruct c; simpl.
  - apply init_safe.
  - apply safe_dispatch; [apply reposition_safe|intros; apply safe_resolve].
  - apply safe_dispatch; [apply repositionById_safe|intros; apply safe_resolve].
  - apply prev_safe.
  - apply next_safe.
  - intros s Hs. apply safe_commit; [|intros; apply safe_resolve].
    intros s' r. by apply edit_apart.
  - intros s Hs. apply safe_commit; [|intros; apply safe_resolve].
    intros s' r. by apply add_apart.
  - intros s Hs. apply safe_commit; [|intros; apply safe_resolve].
    intros s' r. by apply copy_apart.
  - apply save_safe.
  - apply cancel_safe.
  - intros s Hs. apply safe_commit; [|intros; apply safe_resolve].
    intros s' r. by apply update_apart.
Qed.

End Apart.

Lemma keeps_answer {A} (Inv : Session -> Prop) a s (p : Proc A) x :
  keeps Inv p -> Inv s -> answer_exists s a -> answer a (s, p) = Some x ->
  Inv (fst x) /\ keeps Inv (snd x).
Proof.
  intros Hp Hs Ha.
  destruct Hp as [r|? ? ? k HI Hk|? ? ? k HI Hk|? k HI Hk|? ? k HI Hk];
    destruct a as [a|a|a]; simpl; try discriminate; intros [= <-]; split; auto.
Qed.

Lemma step_apart options c c' :
  step options c c' ->
  original_apart (session c) /\ Forall (task_keeps original_apart) (suspended c) ->
  original_apart (session c') /\ Forall (task_keeps original_apart) (suspended c').
Proof.
  intros Hstep [Hs Htasks].
  destruct Hstep as [cmd s tasks|A a s p x tasks1 tasks2 Ha Hx|o s tasks]; simpl in *.
  - destruct (perform_safe options cmd s Hs) as [H1 H2].
    split; [done|]. by constructor.
  - apply Forall_app in Htasks as [Ht1 Ht2].
    apply Forall_cons in Ht2 as [Hp Ht2].
    destruct (keeps_answer _ _ _ _ _ Hp Hs Ha Hx) as [H1 H2].
    split; [done|]. apply Forall_app. split; [done|]. by constructor.
  - split; [|done]. eapply original_apart_ext; [..|exact Hs]; try done.
    simpl. rewrite length_app. lia.
Qed.

Lemma reachable_apart options c :
  reachable options c -> original_apart (session c).
Proof.
  intros [heap Hrtc].
  enough (original_apart (session c) /\ Forall (task_keeps original_apart) (suspended c))
    by tauto.
  pattern c. eapply rtc_ind_r; [| |exact Hrtc].
  - split; [|constructor]. intros o. discriminate.
  - intros c1 c2 _ Hstep IH. by eapply step_apart.
Qed.

(** ** [edit], field updates, [cancel] *)

Lemma update_keeps_original field value s o :
  locked (state s) = false ->
  originalRecord (state s) = Some o ->
  updateMode (state s) ≠ Browse ->
  activeRecord (state s) ≠ Some o ->
  let s' := fst (update field value s) in
  state s' = state s /\
  length (objects s') = length (objects s) /\
  deref (objects s') o = deref (objects s) o.
Proof.
  intros Hl Ho Hm Ha. unfold update. unfold_commit. rewrite Hl.
  rewrite bool_decide_eq_false_2 by done.
  destruct (activeRecord (state s)) as [a|]; [|done].
  destruct (negb _); simpl; [done|].
  destruct (bool_decide _); simpl; [|done].
  split; [done|]. split; [by rewrite length_insert|].
  apply deref_insert_ne. congruence.
Qed.

Lemma updates_keep_original edits s o :
  locked (state s) = false ->
  originalRecord (state s) = Some o ->
  updateMode (state s) ≠ Browse ->
  activeRecord (state s) ≠ Some o ->
  state (updates edits s) = state s /\
  length (objects (updates edits s)) = length (objects s) /\
  deref (objects (updates edits s)) o = deref (objects s) o.
Proof.
  revert s. induction edits as [|[field value] edits IH]; intros s Hl Ho Hm Ha; [done|].
  unfold updates. simpl.
  destruct (update_keeps_original field value s o Hl Ho Hm Ha) as (Hst & Hlen & Hd).
  destruct (IH (fst (update field value s))) as (Hst' & Hlen' & Hd');
    try (by rewrite Hst).
  unfold updates in *. rewrite Hst', Hlen', Hd'. by rewrite Hst, Hlen, Hd.
Qed.

(** C9.  On a session that is not locked and has an original record,
    [edit], then any field updates, then [cancel]: [cancel] settles at once
    and without error, the mode is Browse, and the active record has
    exactly the fields and values the original record had before [edit].
    None of the three suspends at an adapter call. *)
Theorem edit_cancel_restores_original
    (options : IDatasourceOptions) (c : Config) (o : ref)
    (edits : list (string * JsValue)) :
  reachable options c ->
  locked (state (session c)) = false ->
  originalRecord (state (session c)) = Some o ->
  exists s' a,
    cancel (updates edits (fst (edit (session c)))) = (s', Done (inr tt)) /\
    updateMode (state s') = Browse /\
    activeRecord (state s') = Some a /\
    deref (objects s') a = deref (objects (session c)) o.
Proof.
  intros Hreach Hl Ho. set (s := session c) in *.
  destruct (reachable_apart options c Hreach o Ho) as [Hvalid Hapart]. fold s in Hvalid, Hapart.
  assert (Hedit : exists mode, mode ≠ Browse /\
            fst (edit s) = with_state (set_updateMode mode) s).
  { destruct (decide (updateMode (state s) = Browse)) as [Hm|Hm].
    - exists Update. split; [done|]. by rewrite edit_unlocked_browse.
    - exists (updateMode (state s)). split; [done|].
      unfold edit. unfold_commit. rewrite Hl.
      rewrite bool_decide_eq_false_2 by done. simpl. by destruct s as [[]]. }
  destruct Hedit as (mode & Hmode & ->).
  set (s1 := with_state (set_updateMode mode) s).
  destruct (updates_keep_original edits s1 o) as (Hst & Hlen & Hd); try done.
  set (s2 := updates edits s1) in *.
  unfold cancel. rewrite Hst. simpl. rewrite Hl.
  rewrite bool_decide_eq_false_2 by done. rewrite Ho.
  unfold commit at 1. rewrite setActiveRecord_some by (by rewrite Hst).
  unfold commit, resolve. rewrite setUpdateMode_unlocked by (simpl; by rewrite Hst).
  eexists _, o. split; [reflexivity|]. simpl. split; [done|]. split; [done|].
  rewrite deref_alloc_old by (rewrite Hlen; exact Hvalid). exact Hd.
Qed.

(** ** The concrete session *)

Lemma demoConfig_reachable : reachable demoOptions demoConfig.
Proof.
  exists demoHeap.
  eapply rtc_l; [apply (step_command demoOptions DoInit)|].
  eapply rtc_l.
  { apply (step_answer demoOptions (GotFirst (inr [0%nat; 1%nat; 2%nat])) _ _
             (resume (GotFirst (inr [0%nat; 1%nat; 2%nat]))
                (perform demoOptions DoInit (createDatasource demoHeap))) [] []).
    - simpl. repeat constructor.
    - reflexivity. }
  eapply rtc_l.
  { apply (step_answer demoOptions (GotRecord (inr (Some 3%nat))) _ _ demoLoaded [] []).
    - simpl. lia.
    - reflexivity. }
  apply rtc_refl.
Qed.

Lemma demoBrowsing_consistent : pointer_consistent demoBrowsing.
Proof. by apply (pointer_consistent_positionOf _ 3%nat). Qed.

Lemma demoEditing_consistent : pointer_consistent demoEditing.
Proof. by apply (pointer_consistent_positionOf _ 3%nat). Qed.

(** Two [repositionById] calls on the loaded session, for ids 1 and 2,
    the answer for id 2 first: the detail object of record 1 is active at
    the end. *)
Lemma repositionById_applies_superseded_result_witness :
  locked (state demoBrowsing) = false /\
  updateMode (state demoBrowsing) = Browse /\
  exists s',
    overtaken (repositionById demoOptions (Some (JsNumber 1)))
      (repositionById demoOptions (Some (JsNumber 2)))
      (inr (Some 3%nat)) (inr (Some 4%nat)) demoBrowsing =
      Some (s', Done (inr true), Done (inr true)) /\
    activeRecord (state s') = Some 3%nat.
Proof.
  split; [reflexivity|]. split; [reflexivity|].
  apply (repositionById_applies_superseded_result demoOptions demoBrowsing
           (Some (JsNumber 1)) (Some (JsNumber 2)) 3%nat 4%nat); reflexivity.
Defined.

Lemma save_adapter_failure_keeps_lock_witness :
  locked (state demoEditing) = false /\
  updateMode (state demoEditing) ≠ Browse /\
  activeRecord (state demoEditing) = Some 3%nat /\
  (updateMode (state demoEditing) = Update -> is_Some (originalRecord (state demoEditing))) /\
  exists s',
    answerPersist (inl (AdapterError "offline")) (save demoOptions demoEditing) =
      Some (s', Done (inl (error "Datasource is not locked."))) /\
    locked (state s') = true /\
    updateMode (state s') = updateMode (state demoEditing) /\
    activeRecord (state s') = activeRecord (state demoEditing) /\
    originalRecord (state s') = originalRecord (state demoEditing) /\
    records (state s') = records (state demoEditing) /\
    pointer (state s') = pointer (state demoEditing).
Proof.
  assert (H1 : locked (state demoEditing) = false) by reflexivity.
  assert (H2 : updateMode (state demoEditing) ≠ Browse) by (vm_compute; discriminate).
  assert (H3 : activeRecord (state demoEditing) = Some 3%nat) by reflexivity.
  assert (H4 : updateMode (state demoEditing) = Update ->
               is_Some (originalRecord (state demoEditing)))
    by (intros _; exists 5%nat; reflexivity).
  repeat (split; [assumption|]).
  exact (save_adapter_failure_keeps_lock demoOptions demoEditing 3%nat
           (AdapterError "offline") H1 H2 H3 H4).
Defined.

Lemma save_success_rejected_by_unlock_witness :
  locked (state demoEditing) = false /\
  updateMode (state demoEditing) ≠ Browse /\
  activeRecord (state demoEditing) = Some 3%nat /\
  (updateMode (state demoEditing) = Update -> is_Some (originalRecord (state demoEditing))) /\
  exists s',
    answerPersist (inr 4%nat) (save demoOptions demoEditing) =
      Some (s', Done (inl (error "Datasource is not locked."))) /\
    locked (state s') = true /\
    updateMode (state s') = updateMode (state demoEditing) /\
    activeRecord (state s') = Some 3%nat /\
    originalRecord (state s') = originalRecord (state demoEditing) /\
    objects s' = objects demoEditing.
Proof.
  assert (H1 : locked (state demoEditing) = false) by reflexivity.
  assert (H2 : updateMode (state demoEditing) ≠ Browse) by (vm_compute; discriminate).
  assert (H3 : activeRecord (state demoEditing) = Some 3%nat) by reflexivity.
  assert (H4 : updateMode (state demoEditing) = Update ->
               is_Some (originalRecord (state demoEditing)))
    by (intros _; exists 5%nat; reflexivity).
  repeat (split; [assumption|]).
  exact (save_success_rejected_by_unlock demoOptions demoEditing 3%nat 4%nat H1 H2 H3 H4).
Defined.

(** C4, as stated, fails: on the session in Update mode the pointer is
    consistent; the field update of [id] to 2 completes, and afterwards the
    active record has the id of the record at index 1 while the pointer
    still is 0, where the record has another id. *)
Lemma pointer_inconsistent_after_update :
  pointer_consistent demoEditing /\
  exists s',
    update "id" (JsNumber 2) demoEditing = (s', inr tt) /\
    ~ pointer_consistent s'.
Proof.
  split; [exact demoEditing_consistent|].
  exists (fst (update "id" (JsNumber 2) demoEditing)). split; [reflexivity|].
  intros [_ H]. destruct (H 3%nat) as (x & Hx & Hm & _).
  - reflexivity.
  - exists 1%nat. split; [|reflexivity].
    change (1%nat ∈ [0%nat; 1%nat; 2%nat]). set_solver.
  - vm_compute in Hx. injection Hx as <-. vm_compute in Hm. discriminate.
Qed.

Lemma pointer_consistent_after_command_witness :
  is_save DoNext = false /\
  changes_id DoNext demoBrowsing = false /\
  pointer_consistent demoBrowsing /\
  settle [GotRecord (inr (Some 4%nat))] (perform demoOptions DoNext demoBrowsing) =
    Some (demoSecond, inr tt) /\
  pointer_consistent demoSecond.
Proof.
  assert (H1 : is_save DoNext = false) by reflexivity.
  assert (H2 : changes_id DoNext demoBrowsing = false) by reflexivity.
  assert (H3 : settle [GotRecord (inr (Some 4%nat))] (perform demoOptions DoNext demoBrowsing) =
               Some (demoSecond, inr tt)) by reflexivity.
  split; [assumption|]. split; [assumption|].
  split; [exact demoBrowsing_consistent|]. split; [assumption|].
  exact (pointer_consistent_after_command demoOptions DoNext
           [GotRecord (inr (Some 4%nat))] demoBrowsing demoSecond
           H1 H2 demoBrowsing_consistent H3).
Defined.

Lemma init_replaces_records_while_locked_witness :
  locked (state demoEditing) = false /\
  updateMode (state demoEditing) ≠ Browse /\
  activeRecord (state demoEditing) = Some 3%nat /\
  exists s',
    init_during_save demoOptions [] None demoEditing = Some (s', Done (inl errorLocked)) /\
    locked (state s') = true /\
    records (state s') = [].
Proof.
  assert (H1 : locked (state demoEditing) = false) by reflexivity.
  assert (H2 : updateMode (state demoEditing) ≠ Browse) by (vm_compute; discriminate).
  assert (H3 : activeRecord (state demoEditing) = Some 3%nat) by reflexivity.
  repeat (split; [assumption|]).
  exact (init_replaces_records_while_locked demoOptions demoEditing 3%nat [] None H1 H2 H3).
Defined.

(** C7, as stated, fails: on the loaded session the pointer is 0, and
    after [add] it is -1. *)
Lemma add_alters_pointer :
  updateMode (state demoBrowsing) = Browse /\
  locked (state demoBrowsing) = false /\
  activeRecord (state demoBrowsing) = Some 3%nat /\
  pointer (state demoBrowsing) = 0 /\
  exists s', add demoBrowsing = (s', inr tt) /\ pointer (state s') = -1.
Proof.
  repeat (split; [reflexivity|]).
  exists (fst (add demoBrowsing)). split; reflexivity.
Qed.

Lemma add_clears_fields_and_recomputes_pointer_witness :
  locked (state demoBrowsing) = false /\
  updateMode (state demoBrowsing) = Browse /\
  activeRecord (state demoBrowsing) = Some 3%nat /\
  exists s' a',
    add demoBrowsing = (s', inr tt) /\
    updateMode (state s') = Add /\
    activeRecord (state s') = Some a' /\
    deref (objects s') a' = (fun _ => JsNull) <$> deref (objects demoBrowsing) 3%nat /\
    dom (deref (objects s') a') = dom (deref (objects demoBrowsing) 3%nat) /\
    originalRecord (state s') = originalRecord (state demoBrowsing) /\
    (forall r, (r < length (objects demoBrowsing))%nat ->
               deref (objects s') r = deref (objects demoBrowsing) r) /\
    records (state s') = records (state demoBrowsing) /\
    locked (state s') = false /\
    pointer (state s') = positionOf (objects s') (records (state s')) a'.
Proof.
  repeat (split; [reflexivity|]).
  apply (add_clears_fields_and_recomputes_pointer demoBrowsing 3%nat); reflexivity.
Defined.

Lemma edit_enters_update_without_original_witness :
  locked (state (createDatasource [])) = false /\
  updateMode (state (createDatasource [])) = Browse /\
  originalRecord (state (createDatasource [])) = None /\
  edit (createDatasource []) =
    (with_state (set_updateMode Update) (createDatasource []), inr tt).
Proof.
  repeat (split; [reflexivity|]).
  apply (edit_enters_update_without_original (createDatasource [])); reflexivity.
Defined.

Lemma edit_cancel_restores_original_witness :
  reachable demoOptions demoConfig /\
  locked (state (session demoConfig)) = false /\
  originalRecord (state (session demoConfig)) = Some 5%nat /\
  exists s' a,
    cancel (updates [("name"%string, JsString "x"); ("id"%string, JsNumber 7)]
              (fst (edit (session demoConfig)))) = (s', Done (inr tt)) /\
    updateMode (state s') = Browse /\
    activeRecord (state s') = Some a /\
    deref (objects s') a = deref (objects (session demoConfig)) 5%nat.
Proof.
  split; [exact demoConfig_reachable|]. split; [reflexivity|]. split; [reflexivity|].
  apply (edit_cancel_restores_original demoOptions demoConfig 5%nat
           [("name"%string, JsString "x"); ("id"%string, JsNumber 7)]
           demoConfig_reachable); reflexivity.
Defined.

(** C10, as stated, fails: [init] on a new datasource with an empty batch
    completes without error, with no active record and the pointer at
    -1. *)
Lemma init_empty_batch_completes :
  exists s',
    settle [GotFirst (inr [])] (init demoOptions (createDatasource [])) =
      Some (s', inr tt) /\
    activeRecord (state s') = None /\
    pointer (state s') = -1.
Proof.
  exists (fst (resume (GotFirst (inr [])) (init demoOptions (createDatasource [])))).
  repeat split; reflexivity.
Qed.

(** On the loaded session, a [repositionById] whose fetch returns nothing
    rejects with the TypeError; on the session in Add mode that has no
    original record, [cancel] does. *)
Lemma absent_record_commit_witness :
  (locked (state demoBrowsing) = false /\
   updateMode (state demoBrowsing) = Browse /\
   exists s',
     settle [GotRecord (inr None)]
       (repositionById demoOptions (Some (JsNumber 9)) demoBrowsing) =
       Some (s', inl TypeError) /\
     absent_committed demoBrowsing s') /\
  (locked (state demoAddingWithoutOriginal) = false /\
   updateMode (state demoAddingWithoutOriginal) ≠ Browse /\
   originalRecord (state demoAddingWithoutOriginal) = None /\
   exists s',
     cancel demoAddingWithoutOriginal = (s', Done (inl TypeError)) /\
     absent_committed demoAddingWithoutOriginal s').
Proof.
  split.
  - assert (Hl : locked (state demoBrowsing) = false) by reflexivity.
    assert (Hm : updateMode (state demoBrowsing) = Browse) by reflexivity.
    split; [assumption|]. split; [assumption|].
    destruct (absent_record_commit demoOptions demoBrowsing (Some (JsNumber 9)) 0%nat [] Hl)
      as (_ & _ & _ & Hrepos & _).
    destruct (Hrepos Hm) as (s' & Hrun & Habs & _).
    exists s'. split; [exact Hrun|exact Habs].
  - assert (Hl : locked (state demoAddingWithoutOriginal) = false) by reflexivity.
    assert (Hm : updateMode (state demoAddingWithoutOriginal) ≠ Browse)
      by (vm_compute; discriminate).
    assert (Ho : originalRecord (state demoAddingWithoutOriginal) = None) by reflexivity.
    split; [assumption|]. split; [assumption|]. split; [assumption|].
    destruct (absent_record_commit demoOptions demoAddingWithoutOriginal None 0%nat [] Hl)
      as (_ & _ & _ & _ & Hcancel).
    destruct (Hcancel Hm Ho) as (s' & Hrun & Habs & _).
    exists s'. split; [exact Hrun|exact Habs].
Defined.

(** * Further properties of the module *)

(** ** What the field [update] writes *)



(** ** [copy] *)

Lemma copy_completes (s : Session) (a : ref) :
  locked (state s) = false -> updateMode (state s) = Browse ->
  activeRecord (state s) = Some a -> (a < length (objects s))%nat ->
  exists s' a',
    copy s = (s', inr tt) /\
    updateMode (state s') = Copy /\
    activeRecord (state s') = Some a' /\
    a' ≠ a /\
    deref (objects s') a' = deref (objects s) a /\
    originalRecord (state s') = originalRecord (state s) /\
    (forall r, (r < length (objects s))%nat ->
               deref (objects s') r = deref (objects s) r) /\
    records (state s') = records (state s) /\
    pointer (state s') = positionOf (objects s') (records (state s)) a.
Proof.
  intros Hl Hm Ha Hvalid. unfold copy. unfold_commit. rewrite Hl, Hm. simpl.
  rewrite setUpdateMode_unlocked by done. simpl. rewrite Ha.
  rewrite setActiveRecord_some_keeping by done.
  eexists _, (length (objects s)). split; [reflexivity|]. simpl.
  rewrite deref_alloc_new.
  split; [done|]. split; [done|]. split; [lia|]. split; [done|]. split; [done|].
  split; [intros r Hr; by apply deref_alloc_old|]. split; [done|].
  unfold positionOf, id_of. rewrite deref_alloc_new.
  by rewrite deref_alloc_old.
Qed.

(** X3.  In Browse mode, unlocked and with an active record, [copy] sets
    the mode to Copy and makes a new object the active record.  The new
    object is not the previous active record but has exactly its fields
    and values; the original record, the existing objects and [records]
    are untouched, and the pointer is the index of the first loaded record
    with the id of the record copied from (-1 if there is none). *)
Theorem copy_duplicates_active_record (s : Session) (a : ref) :
  locked (state s) = false -> updateMode (state s) = Browse ->
  activeRecord (state s) = Some a -> (a < length (objects s))%nat ->
  exists s' a',
    copy s = (s', inr tt) /\
    updateMode (state s') = Copy /\
    activeRecord (state s') = Some a' /\
    a' ≠ a /\
    deref (objects s') a' = deref (objects s) a /\
    originalRecord (state s') = originalRecord (state s) /\
    (forall r, (r < length (objects s))%nat ->
               deref (objects s') r = deref (objects s) r) /\
    records (state s') = records (state s) /\
    pointer (state s') = positionOf (objects s') (records (state s)) a.
Proof. apply copy_completes. Qed.

(** X4.  After [copy], whatever field updates follow, the record that was
    copied from keeps its fields and values: the edits go to the copy. *)
Theorem copy_then_updates_keep_source
    (s : Session) (a : ref) (edits : list (string * JsValue)) :
  locked (state s) = false -> updateMode (state s) = Browse ->
  activeRecord (state s) = Some a -> (a < length (objects s))%nat ->
  deref (objects (updates edits (fst (copy s)))) a = deref (objects s) a.
Proof.
  intros Hl Hm Ha Hvalid.
  destruct (copy_completes s a Hl Hm Ha Hvalid)
    as (s1 & a' & Hcopy & Hmode & Hact & Hne & _ & _ & Hold & _).
  rewrite Hcopy. simpl. rewrite <- (Hold a Hvalid).
  assert (Hl1 : locked (state s1) = false).
  { unfold copy in Hcopy. unfold_commit. rewrite Hl, Hm in Hcopy. simpl in Hcopy.
    rewrite setUpdateMode_unlocked in Hcopy by done. simpl in Hcopy.
    rewrite setActiveRecord_some_keeping in Hcopy by done. by inversion Hcopy. }
  clear Hcopy Hold. revert s1 Hl1 Hmode Hact.
  induction edits as [|[field value] edits IH]; intros s1 Hl1 Hmode Hact; [done|].
  unfold updates. simpl. fold (updates edits (fst (update field value s1))).
  destruct (update_cases s1 field value) as [-> | (a1 & _ & Hm1 & Ha1 & Hf)];
    [by apply IH|].
  rewrite Hact in Ha1. injection Ha1 as <-.
  destruct (update_completes s1 a' field value Hl1 Hm1 Hact Hf)
    as (s2 & Hup & Hst & _ & _ & _ & Hother).
  rewrite Hup. simpl.
  rewrite IH; [by apply Hother| | |]; by rewrite Hst.
Qed.

(** ** [add] without an active record *)

(** X5.  In Browse mode, unlocked and without an active record, [add]
    makes an object without any enumerable field the active record, in Add
    mode.  On that session an [update] of any field but [__ob__] throws the
    unknown-field error and leaves the session as it is: [update] only
    writes properties the record has.  An [update] of [__ob__], the
    property with which Vue marks the object, completes, and the record
    still has no enumerable field. *)
Theorem add_without_active_record_rejects_field_updates (s : Session) :
  locked (state s) = false -> updateMode (state s) = Browse ->
  activeRecord (state s) = None ->
  exists s' a',
    add s = (s', inr tt) /\
    updateMode (state s') = Add /\
    activeRecord (state s') = Some a' /\
    deref (objects s') a' = ∅ /\
    (forall field value, field ≠ "__ob__"%string ->
      update field value s' =
        (s', inl (error "Cannot update field, since it's not in the record."))) /\
    (forall value, exists s'',
      update "__ob__" value s' = (s'', inr tt) /\ deref (objects s'') a' = ∅).
Proof.
  intros Hl Hm Ha. unfold add. unfold_commit. rewrite Hl, Hm. simpl.
  rewrite setUpdateMode_unlocked by done. simpl. rewrite Ha.
  rewrite setActiveRecord_some_keeping by done.
  eexists _, (length (objects s)). split; [reflexivity|]. simpl.
  rewrite deref_alloc_new. repeat split; try done.
  - intros field value Hfield. unfold update, hasOwnProperty. unfold_commit. simpl.
    rewrite Hl. rewrite deref_alloc_new, lookup_empty.
    rewrite (bool_decide_eq_false_2 (is_Some None)) by (by intros [? ?]).
    by rewrite (bool_decide_eq_false_2 (field = _)).
  - intros value. unfold update, hasOwnProperty. unfold_commit. simpl.
    rewrite Hl. rewrite deref_alloc_new, lookup_empty.
    rewrite !(bool_decide_eq_false_2 (is_Some None)) by (by intros [? ?]).
    simpl. eexists. split; [reflexivity|]. simpl. by rewrite deref_alloc_new.
Qed.

(** ** The mode guards *)

Lemma editing_rejects options c s :
  locked (state s) = false -> updateMode (state s) ≠ Browse ->
  needs_browse c = true ->
  perform options c s =
    (s, Done (if has_nowhere_to_go c s then inr tt
              else inl (errorUnexpectedMode (updateMode (state s)) (Some Browse)))).
Proof.
  intros Hl Hm Hc.
  assert (Hb : bool_decide (updateMode (state s) = Browse) = false)
    by (by apply bool_decide_eq_false_2).
  destruct c; simpl in Hc; try discriminate; simpl.
  - unfold dispatch, reposition, reject. by rewrite Hl, Hb.
  - unfold dispatch, repositionById, reject. by rewrite Hl, Hb.
  - unfold prev. destruct (0 <? _); [|done].
    unfold dispatch, reposition, reject. by rewrite Hl, Hb.
  - unfold next. destruct (_ <? _); [|done].
    unfold dispatch, reposition, reject. by rewrite Hl, Hb.
  - unfold commit, edit. unfold_commit. by rewrite Hl, Hb.
  - unfold commit, add. unfold_commit. by rewrite Hl, Hb.
  - unfold commit, copy. unfold_commit. by rewrite Hl, Hb.
Qed.

(** X6.  On an unlocked session in an edit mode (Update, Add or Copy), the
    commands [reposition], [repositionById], [edit], [add] and [copy]
    settle at once, rejected with the error that [errorUnexpectedMode]
    builds when it is called with the current mode and with Browse as the
    expected mode; so do [prev] when the pointer is above 0 and [next] when
    a record follows the pointer.  [prev] with the pointer at most 0 and
    [next] with no record after the pointer do nothing and report no
    error.  In each case the command leaves the session as it is and makes
    no adapter call.  This is about commands issued in the edit mode: the
    answer to a fetch that was started before is none of them. *)
Theorem edit_modes_reject_navigation
    (options : IDatasourceOptions) (c : Command) (s : Session) :
  locked (state s) = false -> updateMode (state s) ≠ Browse ->
  needs_browse c = true ->
  perform options c s =
    (s, Done (if has_nowhere_to_go c s then inr tt
              else inl (errorUnexpectedMode (updateMode (state s)) (Some Browse)))).
Proof. apply editing_rejects. Qed.

(** X7.  In Browse mode on an unlocked session, [save], [cancel] and the
    field [update] are rejected with the wrong-mode error ([save] and
    [cancel] name no expected mode, [update] names Browse), the session is
    left as it is and no adapter call is made. *)
Theorem browse_mode_rejects_editing
    (options : IDatasourceOptions) (c : Command) (s : Session) :
  locked (state s) = false -> updateMode (state s) = Browse ->
  needs_editing c = true ->
  perform options c s = (s, Done (inl (errorUnexpectedMode Browse (expected_by c)))).
Proof.
  intros Hl Hm Hc. destruct c; simpl in Hc; try discriminate; simpl.
  - unfold save, reject. by rewrite Hl, Hm.
  - unfold cancel, reject. by rewrite Hl, Hm.
  - unfold commit, update. unfold_commit. by rewrite Hl, Hm.
Qed.


(** ** [reposition], [prev] and [next] *)

Lemma at_index_None {A} (l : list A) (pos : Z) :
  at_index l pos = None <-> pos < 0 \/ Z.of_nat (length l) <= pos.
Proof.
  unfold at_index. destruct (0 <=? pos) eqn:Hpos.
  - apply Z.leb_le in Hpos. rewrite lookup_ge_None. lia.
  - apply Z.leb_gt in Hpos. split; [by left|done].
Qed.

(** X9.  In Browse mode on an unlocked session, [reposition] with a
    position below 0 or not below the number of loaded records is rejected
    with "No such position."; the session is left as it is and no adapter
    call is made. *)
Theorem reposition_out_of_bounds (options : IDatasourceOptions) (pos : Z) (s : Session) :
  locked (state s) = false -> updateMode (state s) = Browse ->
  pos < 0 \/ Z.of_nat (length (records (state s))) <= pos ->
  reposition options pos s = (s, Done (inl (error "No such position."))).
Proof.
  intros Hl Hm Hpos. unfold reposition, reject. rewrite Hl, Hm. simpl.
  by rewrite (proj2 (at_index_None _ _) Hpos).
Qed.

(** [prev] with the pointer at most 0 and [next] with the pointer at the
    last record or beyond do nothing at all: no error, no adapter call, the
    session as it is.  This holds in every mode and also while the session
    is locked. *)
Lemma prev_next_stop_at_the_ends
    (options : IDatasourceOptions) (c : Command) (s : Session) :
  (c = DoPrev /\ pointer (state s) <= 0) \/
  (c = DoNext /\ Z.of_nat (length (records (state s))) <= pointer (state s) + 1) ->
  perform options c s = (s, Done (inr tt)).
Proof.
  intros [[-> H]|[-> H]]; simpl.
  - unfold prev. destruct (0 <? _) eqn:Hp; [|done]. apply Z.ltb_lt in Hp. lia.
  - unfold next. destruct (_ <? _) eqn:Hp; [|done]. apply Z.ltb_lt in Hp. lia.
Qed.

Lemma settle_andThen {A B} (answers : list Answer) (f : A -> Action B) s (p : Proc A) s' a :
  settle answers (s, p) = Some (s', inr a) ->
  settle answers (andThen p f s) = settle [] (f a s').
Proof.
  revert s p. induction answers as [|a0 rest IH]; intros s p.
  - destruct p as [[e|a1]| | | |]; simpl; try discriminate. by intros [= <- <-].
  - destruct p as [r|? ? ? k|? ? ? k|? k|? ? k], a0 as [a0|a0|a0]; simpl;
      try discriminate; intros H;
      destruct (k a0 s) as [s1 p1]; simpl; by apply IH.
Qed.

Lemma settle_dispatch {A B} (answers : list Answer) (callee : Action A) (f : A -> Action B)
    s s' a :
  settle answers (callee s) = Some (s', inr a) ->
  settle answers (dispatch callee f s) = settle [] (f a s').
Proof.
  intros H. unfold dispatch. destruct (callee s) as [s1 p]. by apply settle_andThen.
Qed.

Lemma id_of_alloc (h : list DataRecord) (o : DataRecord) (r : ref) :
  (r < length h)%nat -> id_of (h ++ [o]) r = id_of h r.
Proof. intros Hr. unfold id_of. by rewrite deref_alloc_old. Qed.

Lemma positionOf_alloc h o recs r :
  Forall (fun x => (x < length h)%nat) recs -> (r < length h)%nat ->
  positionOf (h ++ [o]) recs r = positionOf h recs r.
Proof.
  intros Hrecs Hr. unfold positionOf. rewrite (id_of_alloc h o r Hr). generalize 0.
  induction Hrecs as [|x recs Hx _ IH]; intros i; simpl; [done|].
  by rewrite (id_of_alloc h o x Hx), IH.
Qed.

Lemma firstIndex_from_at {A} (test : A -> bool) (l : list A) (i : Z) (n : nat) (x : A) :
  l !! n = Some x -> test x = true ->
  (forall j y, (j < n)%nat -> l !! j = Some y -> test y = false) ->
  firstIndex_from test l i = i + Z.of_nat n.
Proof.
  revert i n. induction l as [|y l IH]; intros i n Hx Ht Hbefore; [done|].
  destruct n as [|n]; simpl in *.
  - injection Hx as ->. rewrite Ht. lia.
  - rewrite (Hbefore 0%nat y) by (done || lia).
    rewrite (IH (i + 1) n); [lia|done|done|].
    intros j z Hj Hz. apply (Hbefore (S j)); [lia|done].
Qed.

Lemma positionOf_unique h recs r (n : nat) x :
  NoDup (id_of h <$> recs) -> recs !! n = Some x -> id_of h r = id_of h x ->
  positionOf h recs r = Z.of_nat n.
Proof.
  intros Hnd Hx Hid. unfold positionOf.
  rewrite (firstIndex_from_at _ recs 0 n x); [lia|done|by apply bool_decide_eq_true_2|].
  intros j y Hj Hy. apply bool_decide_eq_false_2. intros Heq.
  assert (j = n); [|lia].
  eapply (NoDup_lookup _ j n (id_of h y) Hnd).
  - by rewrite list_lookup_fmap, Hy.
  - rewrite list_lookup_fmap, Hx. simpl. congruence.
Qed.

(** A [repositionById] that runs alone and is given a record. *)
Lemma repositionById_alone options id rec s :
  locked (state s) = false -> updateMode (state s) = Browse ->
  exists s1,
    settle [GotRecord (inr (Some rec))] (repositionById options id s) =
      Some (selected rec s1, inr true) /\
    state s1 = state s /\ objects s1 = objects s.
Proof.
  intros Hl Hm.
  destruct (repositionById_start options id s Hl Hm) as (s1 & Hrun & Hst & Hob & Hf & _ & Hab).
  exists s1. split; [|done]. simpl. rewrite Hrun. simpl. rewrite Hf, Hab. simpl.
  unfold commit. by rewrite setActiveRecord_some by (by rewrite Hst).
Qed.

Lemma reposition_alone options pos r rec s :
  locked (state s) = false -> updateMode (state s) = Browse ->
  at_index (records (state s)) pos = Some r ->
  exists s1,
    settle [GotRecord (inr (Some rec))] (reposition options pos s) =
      Some (selected rec s1, inr true) /\
    state s1 = state s /\ objects s1 = objects s.
Proof.
  intros Hl Hm Hr.
  destruct (repositionById_alone options (id_of (objects s) r) rec s Hl Hm)
    as (s1 & Hrun & Hst & Hob).
  exists s1. split; [|done]. unfold reposition. rewrite Hl, Hm, Hr.
  rewrite bool_decide_eq_true_2 by done. cbn [negb].
  by rewrite (settle_dispatch _ _ _ _ _ _ Hrun).
Qed.

(** Where the pointer is after [rec] was selected. *)
Lemma selected_position rec r (n : nat) s1 s :
  state s1 = state s -> objects s1 = objects s ->
  records (state s) !! n = Some r ->
  (rec < length (objects s))%nat -> all_exist s (records (state s)) ->
  id_of (objects s) rec = id_of (objects s) r -> ids_unique s ->
  pointer (state (selected rec s1)) = Z.of_nat n /\
  activeRecord (state (selected rec s1)) = Some rec /\
  originalRecord (state (selected rec s1)) = Some (length (objects s)) /\
  deref (objects (selected rec s1)) (length (objects s)) = deref (objects s) rec /\
  deref (objects (selected rec s1)) rec = deref (objects s) rec /\
  records (state (selected rec s1)) = records (state s) /\
  updateMode (state (selected rec s1)) = updateMode (state s) /\
  locked (state (selected rec s1)) = locked (state s).
Proof.
  intros Hst Hob Hr Hrec Hall Hid Huniq. unfold selected. simpl. rewrite Hst, Hob.
  rewrite deref_alloc_new, deref_alloc_old by done.
  split; [|done].
  rewrite positionOf_alloc by done. by apply (positionOf_unique _ _ _ n r).
Qed.

(** X10.  In Browse mode on an unlocked session whose loaded records have
    distinct ids, [reposition(pos)] with a position inside the batch, run
    alone, asks the adapter for the id of the record at that position; if
    the adapter returns a record with that id, the call returns [true],
    the returned record is the active record, the original record is a new
    object with the same fields and values, the pointer is [pos], and
    [records] and the mode are unchanged. *)
Theorem reposition_selects_position
    (options : IDatasourceOptions) (pos : Z) (r rec : ref) (s : Session) :
  locked (state s) = false -> updateMode (state s) = Browse ->
  at_index (records (state s)) pos = Some r ->
  (rec < length (objects s))%nat -> all_exist s (records (state s)) ->
  id_of (objects s) rec = id_of (objects s) r -> ids_unique s ->
  (exists s1 c k,
     reposition options pos s =
       (s1, AwaitGetRecord (id_of (objects s) r) (activeRecordFields options) c k)) /\
  exists s' o,
    settle [GotRecord (inr (Some rec))] (reposition options pos s) = Some (s', inr true) /\
    pointer (state s') = pos /\
    activeRecord (state s') = Some rec /\
    originalRecord (state s') = Some o /\ o ≠ rec /\
    deref (objects s') o = deref (objects s) rec /\
    deref (objects s') rec = deref (objects s) rec /\
    records (state s') = records (state s) /\
    updateMode (state s') = Browse.
Proof.
  intros Hl Hm Hr Hrec Hall Hid Huniq. split.
  - unfold reposition. rewrite Hl, Hm, Hr. simpl. unfold dispatch.
    destruct (repositionById_start options (id_of (objects s) r) s Hl Hm)
      as (s1 & Hrun & _). rewrite Hrun. simpl. by eexists _, _, _.
  - destruct (reposition_alone options pos r rec s Hl Hm Hr) as (s1 & Hrun & Hst & Hob).
    destruct (at_index_Some _ _ _ Hr) as [Hpos Hlook].
    destruct (selected_position rec r (Z.to_nat pos) s1 s Hst Hob Hlook Hrec Hall Hid Huniq)
      as (Hp & Ha & Ho & Hd & Hd' & Hrecs & Hmode & _).
    exists (selected rec s1), (length (objects s)).
    split; [done|]. split; [lia|]. split; [done|]. split; [done|]. split; [lia|].
    split; [done|]. split; [done|]. split; [done|]. by rewrite Hmode.
Qed.

(** X11.  In Browse mode on an unlocked session whose loaded records have
    distinct ids, [next] before the last record, run alone with the
    adapter returning a record that has the id of the following loaded
    record, completes without error with the pointer advanced by exactly
    one and that record active. *)
Theorem next_advances_pointer
    (options : IDatasourceOptions) (r rec : ref) (s : Session) :
  locked (state s) = false -> updateMode (state s) = Browse ->
  at_index (records (state s)) (pointer (state s) + 1) = Some r ->
  (rec < length (objects s))%nat -> all_exist s (records (state s)) ->
  id_of (objects s) rec = id_of (objects s) r -> ids_unique s ->
  exists s',
    settle [GotRecord (inr (Some rec))] (next options s) = Some (s', inr tt) /\
    pointer (state s') = pointer (state s) + 1 /\
    activeRecord (state s') = Some rec /\
    records (state s') = records (state s) /\
    updateMode (state s') = Browse.
Proof.
  intros Hl Hm Hr Hrec Hall Hid Huniq.
  destruct (reposition_alone options _ r rec s Hl Hm Hr) as (s1 & Hrun & Hst & Hob).
  destruct (at_index_Some _ _ _ Hr) as [Hpos Hlook].
  destruct (selected_position rec r _ s1 s Hst Hob Hlook Hrec Hall Hid Huniq)
    as (Hp & Ha & _ & _ & _ & Hrecs & Hmode & _).
  exists (selected rec s1). unfold next.
  destruct (_ <? _) eqn:Hlt; [|apply Z.ltb_ge in Hlt; lia].
  rewrite (settle_dispatch _ _ _ _ _ _ Hrun).
  split; [done|]. split; [lia|]. split; [done|]. split; [done|]. by rewrite Hmode.
Qed.

(** X12.  In Browse mode on an unlocked session whose loaded records have
    distinct ids, [prev] with the pointer above 0, run alone with the
    adapter returning a record that has the id of the preceding loaded
    record, completes without error with the pointer moved back by exactly
    one and that record active. *)
Theorem prev_moves_pointer_back
    (options : IDatasourceOptions) (r rec : ref) (s : Session) :
  locked (state s) = false -> updateMode (state s) = Browse ->
  0 < pointer (state s) ->
  at_index (records (state s)) (pointer (state s) - 1) = Some r ->
  (rec < length (objects s))%nat -> all_exist s (records (state s)) ->
  id_of (objects s) rec = id_of (objects s) r -> ids_unique s ->
  exists s',
    settle [GotRecord (inr (Some rec))] (prev options s) = Some (s', inr tt) /\
    pointer (state s') = pointer (state s) - 1 /\
    activeRecord (state s') = Some rec /\
    records (state s') = records (state s) /\
    updateMode (state s') = Browse.
Proof.
  intros Hl Hm Hp0 Hr Hrec Hall Hid Huniq.
  destruct (reposition_alone options _ r rec s Hl Hm Hr) as (s1 & Hrun & Hst & Hob).
  destruct (at_index_Some _ _ _ Hr) as [Hpos Hlook].
  destruct (selected_position rec r _ s1 s Hst Hob Hlook Hrec Hall Hid Huniq)
    as (Hp & Ha & _ & _ & _ & Hrecs & Hmode & _).
  exists (selected rec s1). unfold prev.
  destruct (0 <? _) eqn:Hlt; [|apply Z.ltb_ge in Hlt; lia].
  rewrite (settle_dispatch _ _ _ _ _ _ Hrun).
  split; [done|]. split; [lia|]. split; [done|]. split; [done|]. by rewrite Hmode.
Qed.

Lemma abortIfAny_fetch_kept c s :
  fetchAbortController (abortIfAny c s) = fetchAbortController s.
Proof. by destruct c. Qed.

Lemma abortIfAny_batch_fetch s :
  fetchAbortController (abortIfAny (batchAbortController s) s) = fetchAbortController s.
Proof. apply abortIfAny_fetch_kept. Qed.

(** ** [init] *)

Lemma aborted_abort c s : (c < length (controllers s))%nat -> aborted (abort c s) c = true.
Proof. intros Hc. unfold aborted, abort. simpl. by rewrite list_lookup_insert_eq. Qed.

Lemma aborted_abort_other c c' s : aborted s c = true -> aborted (abort c' s) c = true.
Proof.
  unfold aborted, abort. simpl. intros H.
  destruct (decide (c' = c)) as [->|Hne].
  - destruct (controllers s !! c) eqn:Hc; [|done].
    rewrite list_lookup_insert_eq; [done|]. by eapply lookup_lt_Some.
  - by rewrite list_lookup_insert_ne.
Qed.

Lemma aborted_abortIfAny c c' s : aborted s c = true -> aborted (abortIfAny c' s) c = true.
Proof. destruct c' as [c'|]; [apply aborted_abort_other|done]. Qed.

Lemma aborted_newAbortController c s :
  aborted s c = true -> aborted (snd (newAbortController s)) c = true.
Proof.
  unfold aborted, newAbortController. simpl.
  destruct (controllers s !! c) eqn:Hc; [|done]. simpl. intros ->.
  by rewrite (lookup_app_l_Some _ _ _ _ Hc).
Qed.

Lemma abortIfAny_controllers_length c s :
  length (controllers (abortIfAny c s)) = length (controllers s).
Proof. destruct c; [apply length_insert|done]. Qed.

(** [init] up to its first [await], on an unlocked session. *)
Lemma init_start options s :
  locked (state s) = false ->
  exists s1 c,
    init options s =
      (s1, AwaitGetFirst (collectionRecordFields options) (batchSize_of options) c
             (init_afterGetFirst options c)) /\
    state s1 = state s /\ objects s1 = objects s /\
    batchAbortController s1 = Some c /\
    (c < length (controllers s1))%nat /\
    aborted s1 c = false.
Proof.
  intros Hl. unfold init. rewrite Hl. simpl.
  eexists _, _. split; [reflexivity|]. simpl.
  rewrite !abortIfAny_state, !abortIfAny_objects.
  repeat split; try done.
  - rewrite length_app. simpl. lia.
  - eapply aborted_new. reflexivity.
Qed.

(** [init] after [getFirst] was answered, when its batch controller is not
    aborted. *)
Lemma init_afterGetFirst_current options c recs s1 :
  aborted s1 c = false ->
  exists s2 c',
    init_afterGetFirst options c (inr recs) s1 =
      match recs with
      | [] => init_settle recs None c' s2
      | x :: _ => (s2, AwaitGetRecord (id_of (objects s1) x) (activeRecordFields options) c'
                         (init_afterGetRecord recs c'))
      end /\
    state s2 = state s1 /\ objects s2 = objects s1 /\
    fetchAbortController s2 = Some c' /\
    (c' < length (controllers s2))%nat /\
    aborted s2 c' = false.
Proof.
  intros Hc. simpl. rewrite Hc.
  eexists _, _. split; [destruct recs; reflexivity|]. simpl.
  repeat split; try done.
  - rewrite length_app. simpl. lia.
  - eapply aborted_new. reflexivity.
Qed.

(** The commits at the end of [init], for a record that is not [null]. *)
Lemma init_settle_some recs rec c s :
  locked (state s) = false -> aborted s c = false ->
  init_settle recs (Some rec) c s =
    (with_state (set_updateMode Browse) (selected rec (with_state (set_records recs) s)),
     Done (inr tt)).
Proof.
  intros Hl Hc. unfold init_settle. unfold commit at 1. simpl.
  unfold aborted in *. simpl. rewrite Hc. simpl.
  unfold commit at 1. rewrite setActiveRecord_some by done.
  unfold commit, resolve. by rewrite setUpdateMode_unlocked.
Qed.

(** The commits at the end of [init] when its record controller was
    aborted meanwhile. *)
Lemma init_settle_aborted recs record c s :
  locked (state s) = false -> aborted s c = true ->
  init_settle recs record c s =
    (with_state (set_updateMode Browse) (with_state (set_records recs) s), Done (inr tt)).
Proof.
  intros Hl Hc. unfold init_settle. unfold commit at 1. simpl.
  unfold aborted in *. simpl. rewrite Hc. simpl.
  unfold commit, resolve, ret. by rewrite setUpdateMode_unlocked.
Qed.

(** X13.  [init] on an unlocked session, in whatever mode, run alone: if
    the adapter returns a non-empty batch and, for the first record, a
    record with the same id, then [init] completes without error with the
    batch as [records], the fetched record active, a new object with the
    same fields and values as the original record, the pointer at 0, and
    the mode Browse. *)
Theorem init_loads_batch_and_first_record
    (options : IDatasourceOptions) (s : Session) (first rec : ref) (rest : list ref) :
  locked (state s) = false ->
  (first < length (objects s))%nat -> (rec < length (objects s))%nat ->
  id_of (objects s) rec = id_of (objects s) first ->
  exists s' o,
    settle [GotFirst (inr (first :: rest)); GotRecord (inr (Some rec))] (init options s) =
      Some (s', inr tt) /\
    records (state s') = first :: rest /\
    activeRecord (state s') = Some rec /\
    originalRecord (state s') = Some o /\ o ≠ rec /\
    deref (objects s') o = deref (objects s) rec /\
    pointer (state s') = 0 /\
    updateMode (state s') = Browse /\
    locked (state s') = false.
Proof.
  intros Hl Hfirst Hrec Hid.
  destruct (init_start options s Hl) as (s1 & c & Hinit & Hst1 & Hob1 & _ & _ & Hc).
  destruct (init_afterGetFirst_current options c (first :: rest) s1 Hc)
    as (s2 & c' & Hk & Hst2 & Hob2 & _ & _ & Hc').
  cbn [settle answer]. rewrite Hinit. cbn [settle answer answerGetFirst]. rewrite Hk.
  cbn [settle answer answerGetRecord init_afterGetRecord].
  rewrite init_settle_some by (done || by rewrite Hst2, Hst1).
  eexists _, (length (objects s)). split; [reflexivity|]. simpl.
  rewrite Hob2, Hob1, deref_alloc_new.
  split; [done|]. split; [done|]. split; [done|]. split; [lia|]. split; [done|].
  split; [|by rewrite Hst2, Hst1].
  unfold positionOf. simpl. rewrite !id_of_alloc by done.
  by rewrite bool_decide_eq_true_2.
Qed.

(** X14.  When a second [init] is started while the first still waits for
    its batch, the first one drops its answer: if the adapter fulfils the
    first [getFirst], that [init] returns without error and without
    changing anything, and if the adapter rejects it, that [init] rejects
    with the adapter's error, again without changing anything. *)
Theorem init_superseded_by_init
    (options : IDatasourceOptions) (s : Session) (a : GetFirstAnswer) :
  locked (state s) = false ->
  answerGetFirst a (fst (init options (fst (init options s))), snd (init options s)) =
    Some (fst (init options (fst (init options s))),
          Done match a with
               | inl e => inl e
               | inr _ => inr tt
               end).
Proof.
  intros Hl.
  destruct (init_start options s Hl) as (s1 & c & Hinit & Hst1 & _ & Hb1 & Hlt & _).
  rewrite Hinit. cbn [fst snd answerGetFirst].
  destruct a as [e|recs]; [done|]. cbn [init_afterGetFirst].
  assert (Hab : aborted (fst (init options s1)) c = true).
  { unfold init. rewrite Hst1, Hl. simpl. rewrite Hb1.
    apply (aborted_newAbortController c
             (abortIfAny (fetchAbortController (abort c s1)) (abort c s1))).
    apply aborted_abortIfAny. by apply aborted_abort. }
  by rewrite Hab.
Qed.

(** X15.  When [repositionById] is started while [init] waits for its
    first record, [init] keeps the batch but drops the record: once the
    adapter answers, [init] completes without error with the batch as
    [records] and the mode Browse, while the active record, the original
    record and the pointer are what they were before [init]. *)
Theorem init_drops_overtaken_first_record
    (options : IDatasourceOptions) (s : Session) (first : ref) (rest : list ref)
    (id : option JsValue) (firstRecord : option ref) :
  locked (state s) = false -> updateMode (state s) = Browse ->
  exists s',
    init_overtaken_by_repositionById options (first :: rest) id (inr firstRecord) s =
      Some (s', Done (inr tt)) /\
    records (state s') = first :: rest /\
    updateMode (state s') = Browse /\
    activeRecord (state s') = activeRecord (state s) /\
    originalRecord (state s') = originalRecord (state s) /\
    pointer (state s') = pointer (state s) /\
    objects s' = objects s.
Proof.
  intros Hl Hm. unfold init_overtaken_by_repositionById.
  destruct (init_start options s Hl) as (s1 & c & Hinit & Hst1 & Hob1 & _ & _ & Hc).
  destruct (init_afterGetFirst_current options c (first :: rest) s1 Hc)
    as (s2 & c' & Hk & Hst2 & Hob2 & Hf2 & Hlt2 & _).
  rewrite Hinit. cbn [answerGetFirst]. rewrite Hk.
  assert (Hl2 : locked (state s2) = false) by (by rewrite Hst2, Hst1).
  assert (Hm2 : updateMode (state s2) = Browse) by (by rewrite Hst2, Hst1).
  assert (Hrepo : exists s3, fst (repositionById options id s2) = s3 /\
            state s3 = state s2 /\ objects s3 = objects s2 /\ aborted s3 c' = true).
  { eexists. split; [reflexivity|]. unfold repositionById. rewrite Hl2, Hm2, Hf2. simpl.
    repeat split.
    apply (aborted_newAbortController c' (abort c' s2)). by apply aborted_abort. }
  destruct Hrepo as (s3 & Hs3 & Hst3 & Hob3 & Hab3).
  destruct (repositionById options id s2) as [s3' p3]. simpl in Hs3. subst s3'.
  cbn [answerGetRecord init_afterGetRecord].
  rewrite init_settle_aborted by (done || by rewrite Hst3).
  eexists. split; [reflexivity|]. simpl.
  rewrite Hst3, Hst2, Hst1, Hob3, Hob2, Hob1. done.
Qed.

(** X16.  When the adapter rejects a fetch of [init], [init] rejects with
    the adapter's error and commits nothing: this holds for [getFirst] and
    for [getRecord], where the batch that was already received is not
    committed either. *)
Theorem init_fetch_failure_commits_nothing
    (options : IDatasourceOptions) (s : Session) (e : Error)
    (first : ref) (rest : list ref) :
  locked (state s) = false ->
  (exists s',
     settle [GotFirst (inl e)] (init options s) = Some (s', inl e) /\
     state s' = state s /\ objects s' = objects s) /\
  (exists s',
     settle [GotFirst (inr (first :: rest)); GotRecord (inl e)] (init options s) =
       Some (s', inl e) /\
     state s' = state s /\ objects s' = objects s).
Proof.
  intros Hl.
  destruct (init_start options s Hl) as (s1 & c & Hinit & Hst1 & Hob1 & _ & _ & Hc).
  split.
  - exists s1. simpl. by rewrite Hinit.
  - destruct (init_afterGetFirst_current options c (first :: rest) s1 Hc)
      as (s2 & c' & Hk & Hst2 & Hob2 & _).
    exists s2. cbn [settle answer]. rewrite Hinit. cbn [settle answer answerGetFirst].
    rewrite Hk. cbn [settle answer answerGetRecord init_afterGetRecord].
    split; [done|]. by rewrite Hst2, Hob2.
Qed.

(** ** [repositionById] *)

(** X17.  When the adapter rejects the fetch of [repositionById], the call
    rejects with the adapter's error and the state and the objects are as
    before. *)
Theorem repositionById_fetch_failure_commits_nothing
    (options : IDatasourceOptions) (s : Session) (e : Error) (id : option JsValue) :
  locked (state s) = false -> updateMode (state s) = Browse ->
  exists s',
    settle [GotRecord (inl e)] (repositionById options id s) = Some (s', inl e) /\
    state s' = state s /\ objects s' = objects s.
Proof.
  intros Hl Hm.
  destruct (repositionById_start options id s Hl Hm) as (s2 & Hrun & Hst2 & Hob2 & _).
  exists s2. simpl. by rewrite Hrun.
Qed.

(** X18.  When [init] is started while [repositionById] waits for its
    record and the adapter answers that fetch before it answers the
    [getFirst] of [init], [repositionById] drops the record: it returns
    [false] and the state and the objects are as before. *)
Theorem repositionById_dropped_after_init_started
    (options : IDatasourceOptions) (s : Session) (id : option JsValue)
    (newRecord : option ref) :
  locked (state s) = false -> updateMode (state s) = Browse ->
  exists s',
    repositionById_overtaken_by_init options id (inr newRecord) s =
      Some (s', Done (inr false)) /\
    state s' = state s /\ objects s' = objects s.
Proof.
  intros Hl Hm. unfold repositionById_overtaken_by_init.
  destruct (repositionById_start options id s Hl Hm)
    as (s1 & Hrun & Hst1 & Hob1 & Hf1 & Hlen1 & _).
  rewrite Hrun.
  destruct (init_start options s1) as (s2 & c & Hinit & Hst2 & Hob2 & _);
    [by rewrite Hst1|].
  assert (Hs2 : fetchAbortController s2 = Some (length (controllers s)) /\
                aborted s2 (length (controllers s)) = true).
  { unfold init in Hinit. rewrite Hst1, Hl in Hinit. injection Hinit as <- _.
    simpl. rewrite abortIfAny_fetch_kept, abortIfAny_batch_fetch. split; [done|].
    rewrite Hf1.
    apply (aborted_newAbortController _
             (abort (length (controllers s)) (abortIfAny (batchAbortController s1) s1))).
    apply aborted_abort. rewrite abortIfAny_controllers_length. lia. }
  destruct Hs2 as [Hf2 Hab2].
  rewrite Hinit. cbn [answerGetRecord repositionById_afterGetRecord].
  rewrite Hf2, Hab2. simpl. eexists. split; [reflexivity|].
  by rewrite Hst2, Hst1, Hob2, Hob1.
Qed.

(** ** Once locked *)

Lemma preserves_andThen {A B} (Inv : Session -> Prop) (p : Proc A) (f : A -> Action B) :
  preserves Inv p -> (forall a, steady Inv (f a)) ->
  forall s, (Inv s -> Inv (fst (andThen p f s))) /\ preserves Inv (snd (andThen p f s)).
Proof.
  intros Hp Hf.
  induction Hp as [r|? ? ? k HI Hk IH|? ? ? k HI Hk IH|? k HI Hk IH|? ? k HI Hk IH];
    intros s; simpl.
  - destruct r as [e|a]; [split; [done|constructor]|]. apply Hf.
  - split; [done|]. constructor; intros a s'; [intros Hs'|]; apply IH; auto.
  - split; [done|]. constructor; intros a s'; [intros Hs'|]; apply IH; auto.
  - split; [done|]. constructor; intros a s'; [intros Hs'|]; apply IH; auto.
  - split; [done|]. constructor; intros a s'; [intros Hs'|]; apply IH; auto.
Qed.

Lemma steady_dispatch {A B} (Inv : Session -> Prop) (callee : Action A) (f : A -> Action B) :
  steady Inv callee -> (forall a, steady Inv (f a)) -> steady Inv (dispatch callee f).
Proof.
  intros Hc Hf s. unfold dispatch. destruct (Hc s) as [H1 H2].
  destruct (callee s) as [s1 p]. simpl in *.
  destruct (preserves_andThen Inv p f H2 Hf s1) as [H3 H4]. split; auto.
Qed.

Lemma steady_commit {A B} (Inv : Session -> Prop) (m : Commit A) (f : A -> Action B) :
  (forall s s' r, m s = (s', r) -> Inv s -> Inv s') -> (forall a, steady Inv (f a)) ->
  steady Inv (commit m f).
Proof.
  intros Hm Hf s. unfold commit. destruct (m s) as [s' [e|a]] eqn:Hms.
  - split; [by eapply Hm|constructor].
  - destruct (Hf a s') as [H1 H2]. split; [|done]. intros Hs. apply H1. by eapply Hm.
Qed.

Lemma steady_resolve {A} (Inv : Session -> Prop) (a : A) : steady Inv (resolve a).
Proof. intros s. split; [done|constructor]. Qed.

Lemma steady_reject {A} (Inv : Session -> Prop) (e : Error) : steady Inv (@reject A e).
Proof. intros s. split; [done|constructor]. Qed.

(** No mutation clears the lock of a locked session. *)
Lemma setCollection_stays_locked recs s s' r :
  setCollection recs s = (s', r) -> is_locked s -> is_locked s'.
Proof. by intros [= <- <-]. Qed.

Lemma setActiveRecord_stays_locked record preserveOriginal s s' r :
  setActiveRecord record preserveOriginal s = (s', r) -> is_locked s -> is_locked s'.
Proof. intros H Hl. rewrite setActiveRecord_locked in H by done. by inversion H; subst. Qed.

Lemma setUpdateMode_stays_locked mode s s' r :
  setUpdateMode mode s = (s', r) -> is_locked s -> is_locked s'.
Proof. intros H Hl. rewrite setUpdateMode_locked in H by done. by inversion H; subst. Qed.

Lemma unlock_stays_locked s s' r : unlock s = (s', r) -> is_locked s -> is_locked s'.
Proof. intros H Hl. rewrite unlock_eq, Hl in H. by inversion H; subst. Qed.

Lemma lock_stays_locked s s' r : lock s = (s', r) -> is_locked s -> is_locked s'.
Proof. intros H Hl. rewrite lock_eq, Hl in H. by inversion H; subst. Qed.

Lemma ret_stays_locked s s' r : @ret unit tt s = (s', r) -> is_locked s -> is_locked s'.
Proof. by intros [= <- <-]. Qed.

Lemma init_settle_steady recs record c : steady is_locked (init_settle recs record c).
Proof.
  unfold init_settle. apply steady_commit; [apply setCollection_stays_locked|].
  intros _ s. apply steady_commit.
  - intros s1 s' r. destruct (negb _);
      [apply setActiveRecord_stays_locked|apply ret_stays_locked].
  - intros _. apply steady_commit; [apply setUpdateMode_stays_locked|].
    intros; apply steady_resolve.
Qed.

Section StaysLocked.

Variable options : IDatasourceOptions.

Lemma init_afterGetRecord_steady recs c a :
  steady is_locked (init_afterGetRecord recs c a).
Proof. destruct a; [apply steady_reject|apply init_settle_steady]. Qed.

Lemma init_afterGetFirst_steady c a : steady is_locked (init_afterGetFirst options c a).
Proof.
  destruct a as [e|recs]; [apply steady_reject|]. intros s. simpl.
  destruct (aborted s c); [apply steady_resolve|].
  destruct recs as [|firstRef rest].
  - destruct (init_settle_steady [] None
                (length (controllers (with_batchAbortController None s)))
                (with_fetchAbortController
                   (Some (length (controllers (with_batchAbortController None s))))
                   (with_controllers
                      (controllers (with_batchAbortController None s) ++ [false])
                      (with_batchAbortController None s)))) as [H1 H2].
    split; [|done]. intros Hs. by apply H1.
  - simpl. split; [done|].
    constructor; intros a s1; [intros Hs1|]; by apply init_afterGetRecord_steady.
Qed.

Lemma init_steady : steady is_locked (init options).
Proof.
  intros s. unfold init. destruct (locked (state s)) eqn:Hl; [by apply steady_reject|].
  simpl. split; [unfold is_locked; simpl; by rewrite !abortIfAny_state|].
  constructor; intros a s1; [intros Hs1|]; by apply init_afterGetFirst_steady.
Qed.

Lemma repositionById_afterGetRecord_steady a :
  steady is_locked (repositionById_afterGetRecord a).
Proof.
  destruct a as [e|newRecord]; [apply steady_reject|]. intros s. simpl.
  destruct (fetchAbortController s); [|apply steady_reject].
  destruct (negb _); [|apply steady_resolve].
  apply steady_commit; [apply setActiveRecord_stays_locked|intros; apply steady_resolve].
Qed.

Lemma repositionById_steady id : steady is_locked (repositionById options id).
Proof.
  intros s. unfold repositionById.
  destruct (locked (state s)) eqn:Hl; [by apply steady_reject|].
  destruct (negb _); [by apply steady_reject|].
  simpl. split; [unfold is_locked; simpl; by rewrite !abortIfAny_state|].
  constructor; intros a s1; [intros Hs1|]; by apply repositionById_afterGetRecord_steady.
Qed.

Lemma reposition_steady pos : steady is_locked (reposition options pos).
Proof.
  intros s. unfold reposition.
  destruct (locked (state s)); [by apply steady_reject|].
  destruct (negb _); [by apply steady_reject|].
  destruct (at_index _ _); [|by apply steady_reject].
  apply steady_dispatch; [apply repositionById_steady|intros; apply steady_resolve].
Qed.

Lemma prev_steady : steady is_locked (prev options).
Proof.
  intros s. unfold prev. destruct (0 <? _); [|by apply steady_resolve].
  apply steady_dispatch; [apply reposition_steady|intros; apply steady_resolve].
Qed.

Lemma next_steady : steady is_locked (next options).
Proof.
  intros s. unfold next. destruct (_ <? _); [|by apply steady_resolve].
  apply steady_dispatch; [apply reposition_steady|intros; apply steady_resolve].
Qed.

Lemma save_finally_steady outcome : steady is_locked (save_finally options outcome).
Proof.
  unfold save_finally. apply steady_commit; [apply unlock_stays_locked|]. intros _.
  destruct outcome as [e|newRecord]; [apply steady_reject|].
  apply steady_commit; [apply setActiveRecord_stays_locked|]. intros _.
  apply steady_dispatch; [apply init_steady|intros; apply steady_resolve].
Qed.

Lemma save_afterAdapter_steady a : steady is_locked (save_afterAdapter options a).
Proof. destruct a; apply save_finally_steady. Qed.

Lemma save_steady : steady is_locked (save options).
Proof.
  intros s. unfold save.
  destruct (locked (state s)) eqn:Hl; [by apply steady_reject|].
  destruct (bool_decide _); [by apply steady_reject|].
  destruct (activeRecord (state s)) as [active|]; [|by apply steady_reject].
  rewrite lock_eq, Hl.
  assert (Hawait : forall p : Proc unit,
            (p = AwaitCreate active (save_afterAdapter options) \/
             exists o, p = AwaitUpdate active o (save_afterAdapter options)) ->
            preserves is_locked p).
  { intros p [->|[o ->]]; constructor; intros a s2; [intros Hs2| |intros Hs2|];
      by apply save_afterAdapter_steady. }
  destruct (updateMode _).
  - destruct (originalRecord _) as [o|].
    + split; [done|]. apply Hawait. right. by exists o.
    + destruct (save_finally_steady
                  (inl (error "Update save action has no original record!"))
                  (with_state (set_locked true) s)) as [H1 H2].
      split; [|done]. intros _. by apply H1.
  - split; [done|]. apply Hawait. by left.
  - split; [done|]. apply Hawait. by left.
  - destruct (save_finally_steady (inr None) (with_state (set_locked true) s)) as [H1 H2].
    split; [|done]. intros _. by apply H1.
Qed.

Lemma cancel_steady : steady is_locked cancel.
Proof.
  intros s. unfold cancel.
  destruct (locked (state s)); [by apply steady_reject|].
  destruct (bool_decide _); [by apply steady_reject|].
  apply steady_commit; [apply setActiveRecord_stays_locked|]. intros _.
  apply steady_commit; [apply setUpdateMode_stays_locked|intros; apply steady_resolve].
Qed.

Lemma commit_stays_locked (m : Commit unit) :
  (forall s, is_locked s -> m s = (s, inl errorLocked)) ->
  steady is_locked (commit m resolve).
Proof.
  intros Hm. apply steady_commit; [|intros; apply steady_resolve].
  intros s s' r H Hl. rewrite (Hm s Hl) in H. by inversion H; subst.
Qed.

Lemma perform_steady c : steady is_locked (perform options c).
Proof.
  destruct c; simpl.
  - apply init_steady.
  - apply steady_dispatch; [apply reposition_steady|intros; apply steady_resolve].
  - apply steady_dispatch; [apply repositionById_steady|intros; apply steady_resolve].
  - apply prev_steady.
  - apply next_steady.
  - apply commit_stays_locked. intros s Hl. unfold edit. unfold_commit. by rewrite Hl.
  - apply commit_stays_locked. intros s Hl. unfold add. unfold_commit. by rewrite Hl.
  - apply commit_stays_locked. intros s Hl. unfold copy. unfold_commit. by rewrite Hl.
  - apply save_steady.
  - apply cancel_steady.
  - apply commit_stays_locked. intros s Hl. unfold update. unfold_commit. by rewrite Hl.
Qed.

Lemma preserves_answer {A} (Inv : Session -> Prop) a s (p : Proc A) x :
  preserves Inv p -> answer a (s, p) = Some x ->
  (Inv s -> Inv (fst x)) /\ preserves Inv (snd x).
Proof.
  intros Hp.
  destruct Hp as [r|? ? ? k HI Hk|? ? ? k HI Hk|? k HI Hk|? ? k HI Hk];
    destruct a as [a|a|a]; simpl; try discriminate; intros [= <-]; split; auto.
Qed.

Lemma step_stays_locked c c' :
  step options c c' ->
  Forall (task_preserves is_locked) (suspended c) ->
  (is_locked (session c) -> is_locked (session c')) /\
  Forall (task_preserves is_locked) (suspended c').
Proof.
  intros Hstep Htasks.
  destruct Hstep as [cmd s tasks|A a s p x tasks1 tasks2 Ha Hx|o s tasks]; simpl in *.
  - destruct (perform_steady cmd s) as [H1 H2]. split; [done|]. by constructor.
  - apply Forall_app in Htasks as [Ht1 Ht2].
    apply Forall_cons in Ht2 as [Hp Ht2].
    destruct (preserves_answer _ _ _ _ _ Hp Hx) as [H1 H2].
    split; [done|]. apply Forall_app. split; [done|]. by constructor.
  - done.
Qed.

Lemma steps_stay_locked c c' :
  rtc (step options) c c' ->
  Forall (task_preserves is_locked) (suspended c) ->
  (is_locked (session c) -> is_locked (session c')) /\
  Forall (task_preserves is_locked) (suspended c').
Proof.
  induction 1 as [c|c1 c2 c3 Hstep _ IH]; intros Htasks; [done|].
  destruct (step_stays_locked _ _ Hstep Htasks) as [H1 H2].
  destruct (IH H2) as [H3 H4]. split; auto.
Qed.

Lemma reachable_tasks_preserve c :
  reachable options c -> Forall (task_preserves is_locked) (suspended c).
Proof.
  intros [heap Hrtc]. by apply (steps_stay_locked _ _ Hrtc).
Qed.

End StaysLocked.

(** X19.  A session that is locked stays locked: from a locked session
    that came about from a new datasource, whatever commands are issued,
    whatever the adapter answers to the calls that are under way, and in
    whatever order, [locked] is [true] afterwards.  Nothing in the module
    clears the flag once it is set. *)
Theorem locked_session_stays_locked (options : IDatasourceOptions) (c c' : Config) :
  reachable options c ->
  rtc (step options) c c' ->
  locked (state (session c)) = true ->
  locked (state (session c')) = true.
Proof.
  intros Hreach Hsteps Hl.
  by apply (steps_stay_locked options c c' Hsteps (reachable_tasks_preserve options c Hreach)).
Qed.


(** ** The original record *)

(** X21.  On every session that came about from a new datasource, no field
    [update] changes the original record, whether the update completes or
    throws: its fields and values are as before. *)
Theorem update_never_changes_original
    (options : IDatasourceOptions) (c : Config) (o : ref)
    (field : string) (value : JsValue) :
  reachable options c ->
  originalRecord (state (session c)) = Some o ->
  deref (objects (fst (update field value (session c)))) o = deref (objects (session c)) o.
Proof.
  intros Hreach Ho.
  destruct (reachable_apart options c Hreach o Ho) as [Hvalid Hapart].
  destruct (update_cases (session c) field value) as [-> | (a & Hl & Hm & Ha & Hf)];
    [done|].
  destruct (update_completes (session c) a field value Hl Hm Ha Hf)
    as (s2 & Hup & _ & _ & _ & _ & Hother).
  rewrite Hup. simpl. apply Hother. congruence.
Qed.

Lemma entersNewRecord_shape enter s :
  entersNewRecord enter ->
  locked (state s) = false -> updateMode (state s) = Browse ->
  exists mode content,
    mode ≠ Browse /\
    enter s =
      (selected_keeping (length (objects s))
         (with_objects (objects s ++ [content]) (with_state (set_updateMode mode) s)),
       inr tt).
Proof.
  intros [-> | ->] Hl Hm.
  - eexists Add, _. split; [done|]. unfold add. unfold_commit. rewrite Hl, Hm. simpl.
    rewrite setUpdateMode_unlocked by done. simpl.
    by rewrite setActiveRecord_some_keeping.
  - eexists Copy, _. split; [done|]. unfold copy. unfold_commit. rewrite Hl, Hm. simpl.
    rewrite setUpdateMode_unlocked by done. simpl.
    by rewrite setActiveRecord_some_keeping.
Qed.

(** X22.  On a session that came about from a new datasource, in Browse
    mode, unlocked and with an original record: [add] or [copy], then any
    field updates, then [cancel].  [cancel] settles at once and without
    error, the mode is Browse, the new record is discarded, and the active
    record is the former original record with the fields and values it
    had; [records] is unchanged. *)
Theorem cancel_discards_new_record
    (options : IDatasourceOptions) (c : Config) (o : ref)
    (enter : Commit unit) (edits : list (string * JsValue)) :
  reachable options c ->
  entersNewRecord enter ->
  locked (state (session c)) = false ->
  updateMode (state (session c)) = Browse ->
  originalRecord (state (session c)) = Some o ->
  exists s',
    cancel (updates edits (fst (enter (session c)))) = (s', Done (inr tt)) /\
    updateMode (state s') = Browse /\
    activeRecord (state s') = Some o /\
    deref (objects s') o = deref (objects (session c)) o /\
    records (state s') = records (state (session c)).
Proof.
  intros Hreach Henter Hl Hm Ho. set (s := session c) in *.
  destruct (reachable_apart options c Hreach o Ho) as [Hvalid _]. fold s in Hvalid.
  destruct (entersNewRecord_shape enter s Henter Hl Hm) as (mode & content & Hmode & ->).
  cbn [fst]. set (s1 := selected_keeping _ _).
  assert (Hd1 : deref (objects s1) o = deref (objects s) o) by (by apply deref_alloc_old).
  destruct (updates_keep_original edits s1 o) as (Hst & Hlen & Hd); try done.
  { simpl. intros [= Heq]. lia. }
  set (s2 := updates edits s1) in *.
  unfold cancel. rewrite Hst. simpl. rewrite Hl.
  rewrite bool_decide_eq_false_2 by done. rewrite Ho.
  unfold commit at 1. rewrite setActiveRecord_some by (by rewrite Hst).
  unfold commit, resolve. rewrite setUpdateMode_unlocked by (simpl; by rewrite Hst).
  eexists. split; [reflexivity|]. simpl. split; [done|]. split; [done|].
  split; [|by rewrite Hst].
  rewrite deref_alloc_old; [by rewrite Hd|].
  rewrite Hlen. simpl. rewrite length_app. lia.
Qed.

(** * Properties of the screen route connector *)

Module ScreenRouteConnectorProps.

Import Stdlib.Strings.Ascii.
Import ScreenRouteConnector.

Lemma split_without_separator sep str :
  occurs sep str = false -> split sep str = (str, []).
Proof.
  induction str as [|c str IH]; simpl; [done|].
  intros Hocc. apply orb_false_iff in Hocc as [Hc Hrest].
  by rewrite (IH Hrest), Hc.
Qed.

Lemma split_first_without_separator sep str : occurs sep (fst (split sep str)) = false.
Proof.
  induction str as [|c str IH]; simpl; [done|].
  destruct (split sep str) as [first rest]. simpl in IH.
  case_bool_decide as Hc; simpl; [done|].
  by rewrite bool_decide_eq_false_2.
Qed.

Lemma split_after_separator sep str :
  snd (split sep (String sep str)) = fst (split sep str) :: snd (split sep str).
Proof.
  simpl. destruct (split sep str) as [first rest].
  by rewrite bool_decide_eq_true_2.
Qed.

Section Connector.

Context {Id : Type} `{EqDecision Id}.

Lemma activateUnlessActive_commit (page : IScreen Id) activeScreen i :
  activateUnlessActive page activeScreen = inr (Some (activateScreen i)) ->
  id page = i /\ exists active, activeScreen = Some active /\ i ≠ id active.
Proof.
  unfold activateUnlessActive. destruct activeScreen as [active|]; [|done].
  case_bool_decide as Hid; [done|]. intros [= <-]. eauto.
Qed.

Lemma activateUnlessActive_open (page : IScreen Id) activeScreen command :
  activateUnlessActive page activeScreen ≠ inr (Some (openScreen command)).
Proof.
  unfold activateUnlessActive. destruct activeScreen as [active|]; [|done].
  by case_bool_decide.
Qed.

Lemma find_unique_route (screens : list (IScreen Id)) (page : IScreen Id) :
  NoDup (route <$> screens) -> In page screens ->
  find (fun screen => bool_decide (route screen = route page)) screens = Some page.
Proof.
  induction screens as [|x screens IH]; simpl; [done|].
  intros Hnd [->|Hin].
  - by rewrite bool_decide_eq_true_2.
  - apply NoDup_cons in Hnd as [Hx Hnd].
    rewrite bool_decide_eq_false_2; [by apply IH|].
    intros Heq. apply Hx. rewrite Heq. apply list_elem_of_fmap.
    exists page. split; [done|]. by apply list_elem_of_In.
Qed.

(** X23.  [routeUpdate] does nothing for a path without a slash, the empty
    path included: there is no route segment, so nothing is committed and
    nothing is thrown, whatever the screens and the item table are. *)
Theorem routeUpdate_ignores_path_without_slash
    (path : string) (screens : list (IScreen Id)) (activeScreen : option (IScreen Id))
    (itemTable : option (list ITreeItem)) :
  occurs "/" path = false ->
  routeUpdate path screens activeScreen itemTable = inr None.
Proof.
  intros Hpath. unfold routeUpdate. by rewrite (split_without_separator _ _ Hpath).
Qed.

(** X24.  Whenever [routeUpdate] commits [activateScreen], the id is that
    of one of the open screens, there is an active screen, and the id is
    not the id of the active screen: the active screen is never activated
    again. *)
Theorem routeUpdate_activates_another_open_screen
    (path : string) (screens : list (IScreen Id)) (activeScreen : option (IScreen Id))
    (itemTable : option (list ITreeItem)) (screenId : Id) :
  routeUpdate path screens activeScreen itemTable = inr (Some (activateScreen screenId)) ->
  (exists screen, In screen screens /\ id screen = screenId) /\
  exists active, activeScreen = Some active /\ screenId ≠ id active.
Proof.
  unfold routeUpdate. destruct (snd (split "/" path)) as [|routeSegment rest]; [done|].
  destruct (find _ screens) as [exact|] eqn:Hexact.
  { intros H. apply activateUnlessActive_commit in H as [Hid Hactive].
    apply find_some in Hexact as [Hin _]. eauto. }
  cbv zeta.
  match goal with
  | |- context [find ?f screens] => destruct (find f screens) as [alternate|] eqn:Halt
  end.
  { intros H. apply activateUnlessActive_commit in H as [Hid Hactive].
    apply find_some in Halt as [Hin _]. eauto. }
  by destruct (match itemTable with Some _ => _ | None => _ end).
Qed.

(** X25.  Whenever [routeUpdate] commits [openScreen], the route of the
    new screen is the route of an item of the item table, it contains no
    plus sign, and no open screen has that route or a route that starts
    with it followed by a plus sign; the new screen is closable and is
    switched to at once, and its component and label are the item's. *)
Theorem routeUpdate_opens_only_unmatched_route
    (path : string) (screens : list (IScreen Id)) (activeScreen : option (IScreen Id))
    (itemTable : option (list ITreeItem)) (command : IOpenScreenCommand) :
  routeUpdate path screens activeScreen itemTable = inr (Some (openScreen command)) ->
  occurs "+" (open_route command) = false /\
  (forall screen, In screen screens ->
     route screen ≠ open_route command /\
     startsWith (route screen) (open_route command ++ "+") = false) /\
  (exists table item,
     itemTable = Some table /\ In item table /\
     item_route item = open_route command /\
     screenComponent command = item_screenComponent item /\
     label command = item_label item /\
     labelTranslateable command = item_labelTranslatable item) /\
  closable command = true /\ switchNow command = true.
Proof.
  unfold routeUpdate. destruct (snd (split "/" path)) as [|routeSegment rest]; [done|].
  destruct (find _ screens) as [exact|] eqn:Hexact.
  { intros H. by apply activateUnlessActive_open in H. }
  cbv zeta.
  match goal with
  | |- context [find ?f screens] => destruct (find f screens) as [alternate|] eqn:Halt
  end.
  { intros H. by apply activateUnlessActive_open in H. }
  destruct itemTable as [table|]; [|done].
  destruct (find _ table) as [item|] eqn:Hitem; [|done].
  intros [= <-]. simpl.
  apply find_some in Hitem as [Hin Hroute]. apply bool_decide_eq_true in Hroute.
  rewrite Hroute. split; [apply split_first_without_separator|].
  split; [|split; [|done]].
  - intros screen Hscreen.
    pose proof (find_none _ _ Halt screen Hscreen) as Hnone. simpl in Hnone.
    apply orb_false_iff in Hnone as [Hne Hprefix].
    apply bool_decide_eq_false in Hne. done.
  - exists table, item. by rewrite Hroute.
Qed.

(** X26.  The two watchers come to rest.  With open screens whose routes
    are distinct, and an active screen among them whose route contains no
    slash: after [screenUpdate] has run, the path is a slash followed by
    the route of the active screen, and on that path neither watcher does
    anything: [routeUpdate] commits nothing and throws nothing, and
    [screenUpdate] asks for no replacement. *)
Theorem watchers_come_to_rest
    (screens : list (IScreen Id)) (active : IScreen Id)
    (itemTable : option (list ITreeItem)) (currentPath : string) :
  NoDup (route <$> screens) -> In active screens ->
  occurs "/" (route active) = false ->
  let path := default currentPath (screenUpdate (Some active) currentPath) in
  path = ("/" ++ route active)%string /\
  routeUpdate path screens (Some active) itemTable = inr None /\
  screenUpdate (Some active) path = None.
Proof.
  intros Hnd Hin Hroute. cbv zeta.
  assert (Hpath : default currentPath (screenUpdate (Some active) currentPath) =
                  ("/" ++ route active)%string).
  { unfold screenUpdate. by case_bool_decide. }
  rewrite Hpath. split; [done|]. split.
  - unfold routeUpdate.
    change ("/" ++ route active)%string with (String "/" (route active)).
    rewrite split_after_separator, (split_without_separator _ _ Hroute). simpl fst.
    rewrite (find_unique_route screens active Hnd Hin).
    unfold activateUnlessActive. by rewrite bool_decide_eq_true_2.
  - unfold screenUpdate. by rewrite bool_decide_eq_true_2.
Qed.

End Connector.

End ScreenRouteConnectorProps.

(** * The further properties on the concrete session *)

Lemma demoEditingConfig_reachable : reachable demoOptions demoEditingConfig.
Proof.
  destruct demoConfig_reachable as [heap Hrtc]. exists heap.
  eapply rtc_r; [exact Hrtc|]. apply (step_command demoOptions DoEdit).
Qed.

Lemma demoSavingConfig_reachable : reachable demoOptions demoSavingConfig.
Proof.
  destruct demoEditingConfig_reachable as [heap Hrtc]. exists heap.
  eapply rtc_r; [exact Hrtc|]. apply (step_command demoOptions DoSave).
Qed.

Lemma demoBrowsing_all_exist : all_exist demoBrowsing (records (state demoBrowsing)).
Proof. unfold all_exist. repeat constructor; vm_compute; lia. Qed.

Lemma demoBrowsing_ids_unique : ids_unique demoBrowsing.
Proof. unfold ids_unique. apply (bool_decide_unpack _). vm_compute. exact I. Qed.



Lemma copy_duplicates_active_record_witness :
  locked (state demoBrowsing) = false /\
  updateMode (state demoBrowsing) = Browse /\
  activeRecord (state demoBrowsing) = Some 3%nat /\
  (3 < length (objects demoBrowsing))%nat /\
  exists s' a',
    copy demoBrowsing = (s', inr tt) /\
    updateMode (state s') = Copy /\
    activeRecord (state s') = Some a' /\
    a' ≠ 3%nat /\
    deref (objects s') a' = deref (objects demoBrowsing) 3%nat /\
    originalRecord (state s') = originalRecord (state demoBrowsing) /\
    (forall r, (r < length (objects demoBrowsing))%nat ->
               deref (objects s') r = deref (objects demoBrowsing) r) /\
    records (state s') = records (state demoBrowsing) /\
    pointer (state s') = positionOf (objects s') (records (state demoBrowsing)) 3%nat.
Proof.
  assert (H1 : locked (state demoBrowsing) = false) by reflexivity.
  assert (H2 : updateMode (state demoBrowsing) = Browse) by reflexivity.
  assert (H3 : activeRecord (state demoBrowsing) = Some 3%nat) by reflexivity.
  assert (H4 : (3 < length (objects demoBrowsing))%nat) by (vm_compute; lia).
  repeat (split; [assumption|]).
  exact (copy_duplicates_active_record demoBrowsing 3%nat H1 H2 H3 H4).
Defined.

Lemma copy_then_updates_keep_source_witness :
  locked (state demoBrowsing) = false /\
  updateMode (state demoBrowsing) = Browse /\
  activeRecord (state demoBrowsing) = Some 3%nat /\
  (3 < length (objects demoBrowsing))%nat /\
  deref (objects (updates [("name"%string, JsString "x"); ("id"%string, JsNumber 7)]
                    (fst (copy demoBrowsing)))) 3%nat =
  deref (objects demoBrowsing) 3%nat.
Proof.
  assert (H1 : locked (state demoBrowsing) = false) by reflexivity.
  assert (H2 : updateMode (state demoBrowsing) = Browse) by reflexivity.
  assert (H3 : activeRecord (state demoBrowsing) = Some 3%nat) by reflexivity.
  assert (H4 : (3 < length (objects demoBrowsing))%nat) by (vm_compute; lia).
  repeat (split; [assumption|]).
  exact (copy_then_updates_keep_source demoBrowsing 3%nat _ H1 H2 H3 H4).
Defined.

Lemma add_without_active_record_rejects_field_updates_witness :
  locked (state (createDatasource demoHeap)) = false /\
  updateMode (state (createDatasource demoHeap)) = Browse /\
  activeRecord (state (createDatasource demoHeap)) = None /\
  exists s' a',
    add (createDatasource demoHeap) = (s', inr tt) /\
    updateMode (state s') = Add /\
    activeRecord (state s') = Some a' /\
    deref (objects s') a' = ∅ /\
    (forall field value, field ≠ "__ob__"%string ->
      update field value s' =
        (s', inl (error "Cannot update field, since it's not in the record."))) /\
    (forall value, exists s'',
      update "__ob__" value s' = (s'', inr tt) /\ deref (objects s'') a' = ∅).
Proof.
  repeat (split; [reflexivity|]).
  apply (add_without_active_record_rejects_field_updates (createDatasource demoHeap));
    reflexivity.
Defined.

Lemma edit_modes_reject_navigation_witness :
  locked (state demoEditing) = false /\
  updateMode (state demoEditing) ≠ Browse /\
  needs_browse (DoReposition 1) = true /\
  perform demoOptions (DoReposition 1) demoEditing =
    (demoEditing,
     Done (if has_nowhere_to_go (DoReposition 1) demoEditing then inr tt
           else inl (errorUnexpectedMode (updateMode (state demoEditing)) (Some Browse)))).
Proof.
  assert (H1 : locked (state demoEditing) = false) by reflexivity.
  assert (H2 : updateMode (state demoEditing) ≠ Browse) by (vm_compute; discriminate).
  assert (H3 : needs_browse (DoReposition 1) = true) by reflexivity.
  repeat (split; [assumption|]).
  exact (edit_modes_reject_navigation demoOptions (DoReposition 1) demoEditing H1 H2 H3).
Defined.

Lemma browse_mode_rejects_editing_witness :
  locked (state demoBrowsing) = false /\
  updateMode (state demoBrowsing) = Browse /\
  needs_editing DoSave = true /\
  perform demoOptions DoSave demoBrowsing =
    (demoBrowsing, Done (inl (errorUnexpectedMode Browse (expected_by DoSave)))).
Proof.
  repeat (split; [reflexivity|]).
  apply (browse_mode_rejects_editing demoOptions DoSave demoBrowsing); reflexivity.
Defined.


Lemma reposition_out_of_bounds_witness :
  locked (state demoBrowsing) = false /\
  updateMode (state demoBrowsing) = Browse /\
  (3 < 0 \/ Z.of_nat (length (records (state demoBrowsing))) <= 3) /\
  reposition demoOptions 3 demoBrowsing =
    (demoBrowsing, Done (inl (error "No such position."))).
Proof.
  assert (H1 : locked (state demoBrowsing) = false) by reflexivity.
  assert (H2 : updateMode (state demoBrowsing) = Browse) by reflexivity.
  assert (H3 : 3 < 0 \/ Z.of_nat (length (records (state demoBrowsing))) <= 3)
    by (right; vm_compute; discriminate).
  repeat (split; [assumption|]).
  exact (reposition_out_of_bounds demoOptions 3 demoBrowsing H1 H2 H3).
Defined.

Lemma reposition_selects_position_witness :
  locked (state demoBrowsing) = false /\
  updateMode (state demoBrowsing) = Browse /\
  at_index (records (state demoBrowsing)) 1 = Some 1%nat /\
  (4 < length (objects demoBrowsing))%nat /\
  all_exist demoBrowsing (records (state demoBrowsing)) /\
  id_of (objects demoBrowsing) 4%nat = id_of (objects demoBrowsing) 1%nat /\
  ids_unique demoBrowsing /\
  exists s' o,
    settle [GotRecord (inr (Some 4%nat))] (reposition demoOptions 1 demoBrowsing) =
      Some (s', inr true) /\
    pointer (state s') = 1 /\
    activeRecord (state s') = Some 4%nat /\
    originalRecord (state s') = Some o /\ o ≠ 4%nat /\
    deref (objects s') o = deref (objects demoBrowsing) 4%nat /\
    deref (objects s') 4%nat = deref (objects demoBrowsing) 4%nat /\
    records (state s') = records (state demoBrowsing) /\
    updateMode (state s') = Browse.
Proof.
  assert (H1 : locked (state demoBrowsing) = false) by reflexivity.
  assert (H2 : updateMode (state demoBrowsing) = Browse) by reflexivity.
  assert (H3 : at_index (records (state demoBrowsing)) 1 = Some 1%nat) by reflexivity.
  assert (H4 : (4 < length (objects demoBrowsing))%nat) by (vm_compute; lia).
  assert (H6 : id_of (objects demoBrowsing) 4%nat = id_of (objects demoBrowsing) 1%nat)
    by reflexivity.
  repeat (split; [assumption|]). split; [exact demoBrowsing_all_exist|].
  split; [assumption|]. split; [exact demoBrowsing_ids_unique|].
  exact (proj2 (reposition_selects_position demoOptions 1 1%nat 4%nat demoBrowsing
                  H1 H2 H3 H4 demoBrowsing_all_exist H6 demoBrowsing_ids_unique)).
Defined.

Lemma next_advances_pointer_witness :
  locked (state demoBrowsing) = false /\
  updateMode (state demoBrowsing) = Browse /\
  at_index (records (state demoBrowsing)) (pointer (state demoBrowsing) + 1) = Some 1%nat /\
  (4 < length (objects demoBrowsing))%nat /\
  id_of (objects demoBrowsing) 4%nat = id_of (objects demoBrowsing) 1%nat /\
  exists s',
    settle [GotRecord (inr (Some 4%nat))] (next demoOptions demoBrowsing) =
      Some (s', inr tt) /\
    pointer (state s') = pointer (state demoBrowsing) + 1 /\
    activeRecord (state s') = Some 4%nat /\
    records (state s') = records (state demoBrowsing) /\
    updateMode (state s') = Browse.
Proof.
  assert (H1 : locked (state demoBrowsing) = false) by reflexivity.
  assert (H2 : updateMode (state demoBrowsing) = Browse) by reflexivity.
  assert (H3 : at_index (records (state demoBrowsing)) (pointer (state demoBrowsing) + 1) =
               Some 1%nat) by reflexivity.
  assert (H4 : (4 < length (objects demoBrowsing))%nat) by (vm_compute; lia).
  assert (H6 : id_of (objects demoBrowsing) 4%nat = id_of (objects demoBrowsing) 1%nat)
    by reflexivity.
  repeat (split; [assumption|]).
  exact (next_advances_pointer demoOptions 1%nat 4%nat demoBrowsing
           H1 H2 H3 H4 demoBrowsing_all_exist H6 demoBrowsing_ids_unique).
Defined.

Lemma demoSecond_all_exist : all_exist demoSecond (records (state demoSecond)).
Proof. unfold all_exist. repeat constructor; vm_compute; lia. Qed.

Lemma demoSecond_ids_unique : ids_unique demoSecond.
Proof. unfold ids_unique. apply (bool_decide_unpack _). vm_compute. exact I. Qed.

Lemma prev_moves_pointer_back_witness :
  locked (state demoSecond) = false /\
  updateMode (state demoSecond) = Browse /\
  0 < pointer (state demoSecond) /\
  at_index (records (state demoSecond)) (pointer (state demoSecond) - 1) = Some 0%nat /\
  (3 < length (objects demoSecond))%nat /\
  id_of (objects demoSecond) 3%nat = id_of (objects demoSecond) 0%nat /\
  exists s',
    settle [GotRecord (inr (Some 3%nat))] (prev demoOptions demoSecond) =
      Some (s', inr tt) /\
    pointer (state s') = pointer (state demoSecond) - 1 /\
    activeRecord (state s') = Some 3%nat /\
    records (state s') = records (state demoSecond) /\
    updateMode (state s') = Browse.
Proof.
  assert (H1 : locked (state demoSecond) = false) by reflexivity.
  assert (H2 : updateMode (state demoSecond) = Browse) by reflexivity.
  assert (H0 : 0 < pointer (state demoSecond)) by reflexivity.
  assert (H3 : at_index (records (state demoSecond)) (pointer (state demoSecond) - 1) =
               Some 0%nat) by reflexivity.
  assert (H4 : (3 < length (objects demoSecond))%nat) by (vm_compute; lia).
  assert (H6 : id_of (objects demoSecond) 3%nat = id_of (objects demoSecond) 0%nat)
    by reflexivity.
  repeat (split; [assumption|]).
  exact (prev_moves_pointer_back demoOptions 0%nat 3%nat demoSecond
           H1 H2 H0 H3 H4 demoSecond_all_exist H6 demoSecond_ids_unique).
Defined.

Lemma init_loads_batch_and_first_record_witness :
  locked (state (createDatasource demoHeap)) = false /\
  (0 < length (objects (createDatasource demoHeap)))%nat /\
  (3 < length (objects (createDatasource demoHeap)))%nat /\
  id_of (objects (createDatasource demoHeap)) 3%nat =
    id_of (objects (createDatasource demoHeap)) 0%nat /\
  exists s' o,
    settle [GotFirst (inr [0%nat; 1%nat; 2%nat]); GotRecord (inr (Some 3%nat))]
      (init demoOptions (createDatasource demoHeap)) = Some (s', inr tt) /\
    records (state s') = [0%nat; 1%nat; 2%nat] /\
    activeRecord (state s') = Some 3%nat /\
    originalRecord (state s') = Some o /\ o ≠ 3%nat /\
    deref (objects s') o = deref (objects (createDatasource demoHeap)) 3%nat /\
    pointer (state s') = 0 /\
    updateMode (state s') = Browse /\
    locked (state s') = false.
Proof.
  assert (H1 : locked (state (createDatasource demoHeap)) = false) by reflexivity.
  assert (H2 : (0 < length (objects (createDatasource demoHeap)))%nat) by (simpl; lia).
  assert (H3 : (3 < length (objects (createDatasource demoHeap)))%nat) by (simpl; lia).
  assert (H4 : id_of (objects (createDatasource demoHeap)) 3%nat =
               id_of (objects (createDatasource demoHeap)) 0%nat) by reflexivity.
  repeat (split; [assumption|]).
  exact (init_loads_batch_and_first_record demoOptions (createDatasource demoHeap)
           0%nat 3%nat [1%nat; 2%nat] H1 H2 H3 H4).
Defined.

Lemma init_superseded_by_init_witness :
  locked (state demoBrowsing) = false /\
  answerGetFirst (inr [2%nat])
    (fst (init demoOptions (fst (init demoOptions demoBrowsing))),
     snd (init demoOptions demoBrowsing)) =
  Some (fst (init demoOptions (fst (init demoOptions demoBrowsing))), Done (inr tt)).
Proof.
  assert (H1 : locked (state demoBrowsing) = false) by reflexivity.
  split; [assumption|].
  exact (init_superseded_by_init demoOptions demoBrowsing (inr [2%nat]) H1).
Defined.

Lemma init_drops_overtaken_first_record_witness :
  locked (state demoBrowsing) = false /\
  updateMode (state demoBrowsing) = Browse /\
  exists s',
    init_overtaken_by_repositionById demoOptions [1%nat; 2%nat] (Some (JsNumber 3))
      (inr (Some 4%nat)) demoBrowsing = Some (s', Done (inr tt)) /\
    records (state s') = [1%nat; 2%nat] /\
    updateMode (state s') = Browse /\
    activeRecord (state s') = activeRecord (state demoBrowsing) /\
    originalRecord (state s') = originalRecord (state demoBrowsing) /\
    pointer (state s') = pointer (state demoBrowsing) /\
    objects s' = objects demoBrowsing.
Proof.
  assert (H1 : locked (state demoBrowsing) = false) by reflexivity.
  assert (H2 : updateMode (state demoBrowsing) = Browse) by reflexivity.
  repeat (split; [assumption|]).
  exact (init_drops_overtaken_first_record demoOptions demoBrowsing 1%nat [2%nat]
           (Some (JsNumber 3)) (Some 4%nat) H1 H2).
Defined.

Lemma init_fetch_failure_commits_nothing_witness :
  locked (state demoBrowsing) = false /\
  (exists s',
     settle [GotFirst (inl (AdapterError "offline"))] (init demoOptions demoBrowsing) =
       Some (s', inl (AdapterError "offline")) /\
     state s' = state demoBrowsing /\ objects s' = objects demoBrowsing) /\
  (exists s',
     settle [GotFirst (inr [1%nat; 2%nat]); GotRecord (inl (AdapterError "offline"))]
       (init demoOptions demoBrowsing) = Some (s', inl (AdapterError "offline")) /\
     state s' = state demoBrowsing /\ objects s' = objects demoBrowsing).
Proof.
  assert (H1 : locked (state demoBrowsing) = false) by reflexivity.
  split; [assumption|].
  exact (init_fetch_failure_commits_nothing demoOptions demoBrowsing
           (AdapterError "offline") 1%nat [2%nat] H1).
Defined.

Lemma repositionById_fetch_failure_commits_nothing_witness :
  locked (state demoBrowsing) = false /\
  updateMode (state demoBrowsing) = Browse /\
  exists s',
    settle [GotRecord (inl (AdapterError "offline"))]
      (repositionById demoOptions (Some (JsNumber 2)) demoBrowsing) =
      Some (s', inl (AdapterError "offline")) /\
    state s' = state demoBrowsing /\ objects s' = objects demoBrowsing.
Proof.
  assert (H1 : locked (state demoBrowsing) = false) by reflexivity.
  assert (H2 : updateMode (state demoBrowsing) = Browse) by reflexivity.
  repeat (split; [assumption|]).
  exact (repositionById_fetch_failure_commits_nothing demoOptions demoBrowsing
           (AdapterError "offline") (Some (JsNumber 2)) H1 H2).
Defined.

Lemma repositionById_dropped_after_init_started_witness :
  locked (state demoBrowsing) = false /\
  updateMode (state demoBrowsing) = Browse /\
  exists s',
    repositionById_overtaken_by_init demoOptions (Some (JsNumber 2)) (inr (Some 4%nat))
      demoBrowsing = Some (s', Done (inr false)) /\
    state s' = state demoBrowsing /\ objects s' = objects demoBrowsing.
Proof.
  assert (H1 : locked (state demoBrowsing) = false) by reflexivity.
  assert (H2 : updateMode (state demoBrowsing) = Browse) by reflexivity.
  repeat (split; [assumption|]).
  exact (repositionById_dropped_after_init_started demoOptions demoBrowsing
           (Some (JsNumber 2)) (Some 4%nat) H1 H2).
Defined.

(** After [save] on the concrete session, the adapter's [update] succeeds
    and [init] is issued: the session is still locked. *)
Lemma demoSaving_steps :
  rtc (step demoOptions) demoSavingConfig
    (mkConfig
       (fst (perform demoOptions DoInit
               (fst (resume (Persisted (inr 4%nat))
                       (perform demoOptions DoSave (session demoEditingConfig))))))
       (task (snd (perform demoOptions DoInit
                     (fst (resume (Persisted (inr 4%nat))
                             (perform demoOptions DoSave (session demoEditingConfig))))))
          :: task (snd (resume (Persisted (inr 4%nat))
                          (perform demoOptions DoSave (session demoEditingConfig))))
          :: suspended demoEditingConfig)).
Proof.
  eapply rtc_l.
  { apply (step_answer demoOptions (Persisted (inr 4%nat)) _ _
             (resume (Persisted (inr 4%nat))
                (perform demoOptions DoSave (session demoEditingConfig)))
             [] (suspended demoEditingConfig)).
    - vm_compute. lia.
    - reflexivity. }
  eapply rtc_l; [apply (step_command demoOptions DoInit)|].
  apply rtc_refl.
Qed.

Lemma locked_session_stays_locked_witness :
  reachable demoOptions demoSavingConfig /\
  locked (state (session demoSavingConfig)) = true /\
  locked (state (fst (perform demoOptions DoInit
                        (fst (resume (Persisted (inr 4%nat))
                                (perform demoOptions DoSave (session demoEditingConfig))))))) =
  true.
Proof.
  assert (H1 : locked (state (session demoSavingConfig)) = true) by reflexivity.
  split; [exact demoSavingConfig_reachable|]. split; [assumption|].
  exact (locked_session_stays_locked demoOptions demoSavingConfig _
           demoSavingConfig_reachable demoSaving_steps H1).
Defined.


Lemma update_never_changes_original_witness :
  reachable demoOptions demoEditingConfig /\
  originalRecord (state (session demoEditingConfig)) = Some 5%nat /\
  update "name" (JsString "x") (session demoEditingConfig) =
    (fst (update "name" (JsString "x") (session demoEditingConfig)), inr tt) /\
  deref (objects (fst (update "name" (JsString "x") (session demoEditingConfig)))) 5%nat =
  deref (objects (session demoEditingConfig)) 5%nat.
Proof.
  assert (H1 : originalRecord (state (session demoEditingConfig)) = Some 5%nat)
    by reflexivity.
  split; [exact demoEditingConfig_reachable|]. split; [assumption|].
  split; [reflexivity|].
  exact (update_never_changes_original demoOptions demoEditingConfig 5%nat
           "name" (JsString "x") demoEditingConfig_reachable H1).
Defined.

Lemma cancel_discards_new_record_witness :
  reachable demoOptions demoConfig /\
  entersNewRecord add /\
  locked (state (session demoConfig)) = false /\
  updateMode (state (session demoConfig)) = Browse /\
  originalRecord (state (session demoConfig)) = Some 5%nat /\
  exists s',
    cancel (updates [("name"%string, JsString "x")] (fst (add (session demoConfig)))) =
      (s', Done (inr tt)) /\
    updateMode (state s') = Browse /\
    activeRecord (state s') = Some 5%nat /\
    deref (objects s') 5%nat = deref (objects (session demoConfig)) 5%nat /\
    records (state s') = records (state (session demoConfig)).
Proof.
  assert (H0 : entersNewRecord add) by (by left).
  assert (H1 : locked (state (session demoConfig)) = false) by reflexivity.
  assert (H2 : updateMode (state (session demoConfig)) = Browse) by reflexivity.
  assert (H3 : originalRecord (state (session demoConfig)) = Some 5%nat) by reflexivity.
  split; [exact demoConfig_reachable|]. repeat (split; [assumption|]).
  exact (cancel_discards_new_record demoOptions demoConfig 5%nat add
           [("name"%string, JsString "x")] demoConfig_reachable H0 H1 H2 H3).
Defined.

(** ** The screen route connector on concrete screens *)

Module ScreenRouteConnectorDemo.

Import Stdlib.Strings.Ascii.

Lemma routeUpdate_ignores_path_without_slash_witness :
  ScreenRouteConnector.occurs "/" "customers" = false /\
  ScreenRouteConnector.routeUpdate "customers" demoScreens None (Some demoItems) = inr None.
Proof.
  assert (H1 : ScreenRouteConnector.occurs "/" "customers" = false) by reflexivity.
  split; [assumption|].
  exact (ScreenRouteConnectorProps.routeUpdate_ignores_path_without_slash
           "customers" demoScreens None (Some demoItems) H1).
Defined.

Lemma routeUpdate_activates_another_open_screen_witness :
  ScreenRouteConnector.routeUpdate "/customers+2/details" demoScreens
    (Some {| ScreenRouteConnector.id := 1; ScreenRouteConnector.route := "" |})
    (Some demoItems) = inr (Some (ScreenRouteConnector.activateScreen 2)) /\
  (exists screen, In screen demoScreens /\ ScreenRouteConnector.id screen = 2) /\
  exists active,
    Some {| ScreenRouteConnector.id := 1; ScreenRouteConnector.route := "" |} = Some active /\
    2 ≠ ScreenRouteConnector.id active.
Proof.
  assert (H1 : ScreenRouteConnector.routeUpdate "/customers+2/details" demoScreens
                 (Some {| ScreenRouteConnector.id := 1; ScreenRouteConnector.route := "" |})
                 (Some demoItems) = inr (Some (ScreenRouteConnector.activateScreen 2)))
    by reflexivity.
  split; [assumption|].
  exact (ScreenRouteConnectorProps.routeUpdate_activates_another_open_screen
           _ _ _ _ _ H1).
Defined.

Lemma routeUpdate_opens_only_unmatched_route_witness :
  exists command,
    ScreenRouteConnector.routeUpdate "/orders+1" demoScreens
      (Some {| ScreenRouteConnector.id := 1; ScreenRouteConnector.route := "" |})
      (Some demoItems) = inr (Some (ScreenRouteConnector.openScreen command)) /\
    ScreenRouteConnector.open_route command = "orders"%string /\
    ScreenRouteConnector.occurs "+" (ScreenRouteConnector.open_route command) = false /\
    ScreenRouteConnector.closable command = true /\
    ScreenRouteConnector.switchNow command = true.
Proof.
  eexists. split; [reflexivity|]. split; [reflexivity|].
  match goal with
  | |- context [ScreenRouteConnector.open_route ?command] =>
      destruct (ScreenRouteConnectorProps.routeUpdate_opens_only_unmatched_route
                  "/orders+1" demoScreens
                  (Some {| ScreenRouteConnector.id := 1; ScreenRouteConnector.route := "" |})
                  (Some demoItems) command eq_refl) as (H1 & _ & _ & H2 & H3)
  end.
  split; [exact H1|]. split; [exact H2|exact H3].
Defined.

Lemma watchers_come_to_rest_witness :
  NoDup (ScreenRouteConnector.route <$> demoScreens) /\
  In {| ScreenRouteConnector.id := 2; ScreenRouteConnector.route := "customers" |}
     demoScreens /\
  ScreenRouteConnector.occurs "/" "customers" = false /\
  ScreenRouteConnector.screenUpdate
    (Some {| ScreenRouteConnector.id := 2; ScreenRouteConnector.route := "customers" |})
    "/orders" = Some "/customers"%string /\
  ScreenRouteConnector.routeUpdate "/customers" demoScreens
    (Some {| ScreenRouteConnector.id := 2; ScreenRouteConnector.route := "customers" |})
    None = inr None /\
  ScreenRouteConnector.screenUpdate
    (Some {| ScreenRouteConnector.id := 2; ScreenRouteConnector.route := "customers" |})
    "/customers" = None.
Proof.
  assert (H1 : NoDup (ScreenRouteConnector.route <$> demoScreens))
    by (apply (bool_decide_unpack _); vm_compute; exact I).
  assert (H2 : In {| ScreenRouteConnector.id := 2;
                     ScreenRouteConnector.route := "customers" |} demoScreens)
    by (right; left; reflexivity).
  assert (H3 : ScreenRouteConnector.occurs "/" "customers" = false) by reflexivity.
  split; [assumption|]. split; [assumption|]. split; [assumption|].
  split; [reflexivity|].
  exact (proj2 (ScreenRouteConnectorProps.watchers_come_to_rest demoScreens
                  {| ScreenRouteConnector.id := 2;
                     ScreenRouteConnector.route := "customers" |}
                  None "/orders" H1 H2 H3)).
Defined.

End ScreenRouteConnectorDemo.
